(** * BetTrack Buddy: the player ledger of [BettingDashboard.tsx]

    A shallow embedding of the state and the event handlers of the
    [BettingDashboard] component (src/components/BettingDashboard.tsx),
    followed by the properties of the ledger.

    Conventions of the embedding.
    - A JavaScript string is a [string]: a sequence of code units, here
      restricted to the range 0..255 (ASCII and Latin-1).
    - A JavaScript number is a [number]: NaN, the two infinities, or a finite
      value, held as a rational ([Qc]); the sign of zero is not modelled.
      Products and quotients, which the component uses for the win rate, are
      rounded to binary64.  Sums and [parseFloat] are exact: the sums of the
      ledger are stated in the order in which the code adds, no law of
      addition is used in their proofs, and amounts stay what [parseFloat]
      gives.
    - React state is a record [State]; a handler maps the state it reads to
      the state after its [set...] calls, together with the toast it raises.
      Player objects are never mutated in place by the component (every update
      builds new objects), so records with value semantics are faithful.
    - [new Date().toLocaleDateString()] is an input of the handler. *)

From stdpp Require Import gmap strings list.
From Stdlib Require Import Ascii ZArith QArith Qcanon Qround Qabs Qpower.
From Stdlib Require Import DecimalString Lqa.
From Stdlib Require Floats.
From Stdlib Require Import Sorting.Sorted Sorting.Mergesort Lia.
From Stdlib Require DecimalNat DecimalFacts.

Close Scope Qc_scope.
Close Scope Q_scope.
Local Open Scope Z_scope.
Local Open Scope string_scope.
Local Open Scope list_scope.
Local Open Scope nat_scope.

(** ** Numbers *)

Module Num.

Inductive number : Type :=
| NaN
| Infinity (negative : bool)
| Fin (q : Qc).

Definition of_Z (z : Z) : number := Fin (Q2Qc (inject_Z z)).
Definition of_nat (n : nat) : number := of_Z (Z.of_nat n).
Definition zero : number := of_Z 0.

Definition isNaN (x : number) : bool :=
  match x with NaN => true | _ => false end.

Definition isFinite (x : number) : bool :=
  match x with Fin _ => true | _ => false end.

Definition Qc_ltb (a b : Qc) : bool :=
  match (a ?= b)%Qc with Lt => true | _ => false end.

Definition Qc_eqb (a b : Qc) : bool :=
  match (a ?= b)%Qc with Eq => true | _ => false end.

Definition neg (x : number) : number :=
  match x with
  | NaN => NaN
  | Infinity s => Infinity (negb s)
  | Fin q => Fin (- q)%Qc
  end.

(** [x + y] *)
Definition add (x y : number) : number :=
  match x, y with
  | NaN, _ | _, NaN => NaN
  | Infinity s, Infinity t => if Bool.eqb s t then Infinity s else NaN
  | Infinity s, Fin _ => Infinity s
  | Fin _, Infinity t => Infinity t
  | Fin a, Fin b => Fin (a + b)%Qc
  end.

(** *** Rounding to binary64

    The value of a product or quotient is the exact one rounded to the
    nearest binary64 number, a tie going to the even significand; results
    below [2^-1022] in magnitude are rounded to a multiple of [2^-1074], and
    results that round to [2^1024] or more in magnitude overflow. *)

Definition pow2 (e : Z) : Q := (2 ^ e)%Q.

(** [floor (log2 x)], for [x > 0]. *)
Definition ilog2 (x : Q) : Z :=
  let k := (Z.log2 (Qnum x) - Z.log2 (Zpos (Qden x)))%Z in
  match (x ?= pow2 k)%Q with
  | Lt => (k - 1)%Z
  | _ => k
  end.

(** The integer nearest to [x], the even one of two equally near. *)
Definition round_even (x : Q) : Z :=
  let f := Qfloor x in
  match (x - inject_Z f ?= 1 # 2)%Q with
  | Lt => f
  | Gt => (f + 1)%Z
  | Eq => if Z.even f then f else (f + 1)%Z
  end.

Definition binary64 (x : Q) : number :=
  match (x ?= 0)%Q with
  | Eq => Fin (Q2Qc 0%Q)
  | c =>
      let e := Z.max (ilog2 (Qabs x) - 52) (-1074) in
      let r := (inject_Z (round_even (x / pow2 e)) * pow2 e)%Q in
      if Qle_bool (pow2 1024) (Qabs r)
      then Infinity (match c with Lt => true | _ => false end)
      else Fin (Q2Qc r)
  end.

(** [x * y] *)
Definition mul (x y : number) : number :=
  match x, y with
  | NaN, _ | _, NaN => NaN
  | Infinity s, Infinity t => Infinity (xorb s t)
  | Infinity s, Fin b =>
      if Qc_eqb b 0%Qc then NaN else Infinity (xorb s (Qc_ltb b 0%Qc))
  | Fin a, Infinity t =>
      if Qc_eqb a 0%Qc then NaN else Infinity (xorb (Qc_ltb a 0%Qc) t)
  | Fin a, Fin b => binary64 (this a * this b)%Q
  end.

(** [x / y] *)
Definition div (x y : number) : number :=
  match x, y with
  | NaN, _ | _, NaN => NaN
  | Infinity _, Infinity _ => NaN
  | Infinity s, Fin b => Infinity (xorb s (Qc_ltb b 0%Qc))
  | Fin _, Infinity _ => Fin 0%Qc
  | Fin a, Fin b =>
      if Qc_eqb b 0%Qc
      then (if Qc_eqb a 0%Qc then NaN else Infinity (Qc_ltb a 0%Qc))
      else binary64 (this a / this b)%Q
  end.

(** [x > y] *)
Definition gtb (x y : number) : bool :=
  match x, y with
  | NaN, _ | _, NaN => false
  | Infinity s, Infinity t => negb s && t
  | Infinity s, Fin _ => negb s
  | Fin _, Infinity t => t
  | Fin a, Fin b => Qc_ltb b a
  end.

(** [Math.round(x)]: the integer nearest to [x], a tie going up. *)
Definition Math_round (x : number) : number :=
  match x with
  | Fin q => of_Z (Qfloor (q + (1 # 2))%Q)
  | _ => x
  end.

End Num.
Export Num.

Declare Scope num_scope.
Delimit Scope num_scope with num.
Bind Scope num_scope with number.
Infix "+" := Num.add : num_scope.
Infix "*" := Num.mul : num_scope.
Infix "/" := Num.div : num_scope.
Infix ">?" := Num.gtb (at level 70) : num_scope.

(** ** Strings *)

Module Str.

Definition code (c : ascii) : nat := nat_of_ascii c.

(** WhiteSpace and LineTerminator code units below 256. *)
Definition isWhiteSpace (c : ascii) : bool :=
  let n := code c in
  (n =? 9) || (n =? 10) || (n =? 11) || (n =? 12) || (n =? 13)
  || (n =? 32) || (n =? 160).

Fixpoint trimStart (s : string) : string :=
  match s with
  | String c s' => if isWhiteSpace c then trimStart s' else s
  | EmptyString => EmptyString
  end.

Fixpoint trimEnd (s : string) : string :=
  match s with
  | EmptyString => EmptyString
  | String c s' =>
      match trimEnd s' with
      | EmptyString => if isWhiteSpace c then EmptyString else String c EmptyString
      | r => String c r
      end
  end.

(** [s.trim()] *)
Definition trim (s : string) : string := trimEnd (trimStart s).

(** Lower-case mapping of one code unit: A-Z, and the Latin-1 capitals
    U+00C0..U+00DE except the multiplication sign U+00D7. *)
Definition lowerChar (c : ascii) : ascii :=
  let n := code c in
  if ((65 <=? n) && (n <=? 90))
     || ((192 <=? n) && (n <=? 222) && negb (n =? 215))
  then ascii_of_nat (n + 32) else c.

(** [s.toLowerCase()] *)
Fixpoint toLowerCase (s : string) : string :=
  match s with
  | EmptyString => EmptyString
  | String c s' => String (lowerChar c) (toLowerCase s')
  end.

(** [String(n)] for a non-negative integer. *)
Definition of_nat (n : nat) : string :=
  NilZero.string_of_uint (Nat.to_uint n).

(** Truthiness of a string: [!s] holds exactly for the empty string. *)
Definition truthy (s : string) : bool :=
  match s with EmptyString => false | _ => true end.

End Str.

(** ** parseFloat *)

Module Parse.

Definition isDigit (c : ascii) : bool :=
  let n := Str.code c in (48 <=? n) && (n <=? 57).

(** The longest run of decimal digits at the start of [s], and the rest. *)
Fixpoint span_digits (s : string) : string * string :=
  match s with
  | String c s' =>
      if isDigit c
      then let '(ds, rest) := span_digits s' in (String c ds, rest)
      else (EmptyString, s)
  | EmptyString => (EmptyString, EmptyString)
  end.

Fixpoint digits_value_from (acc : Z) (ds : string) : Z :=
  match ds with
  | EmptyString => acc
  | String c ds' =>
      digits_value_from (10 * acc + Z.of_nat (Str.code c - 48))%Z ds'
  end.

(** The mathematical value of a run of decimal digits. *)
Definition digits_value (ds : string) : Z := digits_value_from 0%Z ds.

Definition pow10 (e : Z) : Q :=
  if (0 <=? e)%Z then inject_Z (10 ^ e)
  else (1 # Z.to_pos (10 ^ (- e)))%Q.

(** ExponentPart, when one starts [s]: its value and the rest; otherwise
    nothing is consumed. *)
Definition exponentPart (s : string) : Z * string :=
  match s with
  | String c s1 =>
      if (Str.code c =? 101) || (Str.code c =? 69) then
        let '(sign, s2) :=
          match s1 with
          | String "+" t => (1%Z, t)
          | String "-" t => ((-1)%Z, t)
          | _ => (1%Z, s1)
          end in
        let '(ds, rest) := span_digits s2 in
        match ds with
        | EmptyString => (0%Z, s)
        | _ => ((sign * digits_value ds)%Z, rest)
        end
      else (0%Z, s)
  | EmptyString => (0%Z, s)
  end.

Fixpoint strip_prefix (p s : string) : option string :=
  match p, s with
  | EmptyString, _ => Some s
  | String a p', String b s' =>
      if Ascii.eqb a b then strip_prefix p' s' else None
  | String _ _, EmptyString => None
  end.

(** The longest prefix of [s] that is a StrUnsignedDecimalLiteral: its
    value and the rest of [s]; [None] when no prefix is one. *)
Definition strUnsignedDecimalLiteral (s : string) : option (number * string) :=
  match strip_prefix "Infinity" s with
  | Some rest => Some (Infinity false, rest)
  | None =>
      let '(ip, s1) := span_digits s in
      let '(fp, s2) :=
        match s1 with
        | String "." t => span_digits t
        | _ => (EmptyString, s1)
        end in
      match ip, fp with
      | EmptyString, EmptyString => None
      | _, _ =>
          let '(e, rest) := exponentPart s2 in
          let m := inject_Z (digits_value (ip +:+ fp)) in
          Some (Fin (Q2Qc (m * pow10 (e - Z.of_nat (String.length fp)))), rest)
      end
  end.

(** The longest prefix of [s] that is a StrDecimalLiteral. *)
Definition strDecimalLiteral (s : string) : option (number * string) :=
  match s with
  | String "+" t => strUnsignedDecimalLiteral t
  | String "-" t =>
      match strUnsignedDecimalLiteral t with
      | Some (v, rest) => Some (Num.neg v, rest)
      | None => None
      end
  | _ => strUnsignedDecimalLiteral s
  end.

(** [parseFloat(s)] *)
Definition parseFloat (s : string) : number :=
  match strDecimalLiteral (Str.trimStart s) with
  | Some (v, _) => v
  | None => NaN
  end.

End Parse.
Export Parse.

(** ** Data model *)

Record Earning : Type := mkEarning {
  match_ : string;
  amount : number;
  total : number;
  date : string
}.

Record Player : Type := mkPlayer {
  name : string;
  earnings : list Earning;
  totalEarnings : number
}.

(** The [useState] cells of the component. *)
Record State : Type := mkState {
  players : list Player;
  selectedPlayer : option Player;
  newPlayer : string;
  newEarning : string;
  showAllPlayers : bool
}.

Definition initial : State :=
  {| players := []; selectedPlayer := None; newPlayer := "";
     newEarning := ""; showAllPlayers := false |}.

(** ** Toasts *)

Inductive Variant : Type := Default | Destructive.

Inductive Description : Type :=
| Text (s : string)
  (** [`${isPositive ? '+' : ''}R${amount} has been recorded for ${name}.`] *)
| Recorded (plus : bool) (amount : number) (name : string).

Record Toast : Type := mkToast {
  title : string;
  description : Description;
  variant : Variant
}.

(** ** Event handlers *)

Definition setPlayers (ps : list Player) (s : State) : State :=
  {| players := ps; selectedPlayer := selectedPlayer s;
     newPlayer := newPlayer s; newEarning := newEarning s;
     showAllPlayers := showAllPlayers s |}.

Definition setSelectedPlayer (p : option Player) (s : State) : State :=
  {| players := players s; selectedPlayer := p;
     newPlayer := newPlayer s; newEarning := newEarning s;
     showAllPlayers := showAllPlayers s |}.

Definition setNewPlayer (v : string) (s : State) : State :=
  {| players := players s; selectedPlayer := selectedPlayer s;
     newPlayer := v; newEarning := newEarning s;
     showAllPlayers := showAllPlayers s |}.

Definition setNewEarning (v : string) (s : State) : State :=
  {| players := players s; selectedPlayer := selectedPlayer s;
     newPlayer := newPlayer s; newEarning := v;
     showAllPlayers := showAllPlayers s |}.

Definition setShowAllPlayers (b : bool) (s : State) : State :=
  {| players := players s; selectedPlayer := selectedPlayer s;
     newPlayer := newPlayer s; newEarning := newEarning s;
     showAllPlayers := b |}.

(** [players.some(p => p.name.toLowerCase() === newPlayer.toLowerCase())] *)
Definition nameTaken (ps : list Player) (input : string) : bool :=
  existsb
    (fun p => String.eqb (Str.toLowerCase (name p)) (Str.toLowerCase input))
    ps.

Definition handleAddPlayer (s : State) : State * Toast :=
  if negb (Str.truthy (Str.trim (newPlayer s))) then
    (s, {| title := "Invalid Input";
           description := Text "Please enter a player name.";
           variant := Destructive |})
  else if nameTaken (players s) (newPlayer s) then
    (s, {| title := "Player Exists";
           description := Text "A player with this name already exists.";
           variant := Destructive |})
  else
    let newPlayerObj :=
      {| name := Str.trim (newPlayer s); earnings := []; totalEarnings := Num.zero |} in
    (setNewPlayer "" (setPlayers (players s ++ [newPlayerObj]) s),
     {| title := "Player Added";
        description := Text (newPlayer s +:+ " has been added to the dashboard.");
        variant := Default |}).

(** The body of the [players.map] callback of [handleAddEarning]. *)
Definition updatePlayer (today selected : string) (amount : number)
    (player : Player) : Player :=
  if String.eqb (name player) selected then
    let newTotal := (totalEarnings player + amount)%num in
    let newEarningEntry :=
      {| match_ := "Ticket " +:+ Str.of_nat (length (earnings player) + 1);
         amount := amount;
         total := newTotal;
         date := today |} in
    let updatedEarnings := earnings player ++ [newEarningEntry] in
    {| name := name player;
       earnings := updatedEarnings;
       totalEarnings := newTotal |}
  else player.

(** [ps.find(p => p.name === n) || null] *)
Definition findByName (n : string) (ps : list Player) : option Player :=
  List.find (fun p => String.eqb (name p) n) ps.

Definition handleAddEarning (today : string) (s : State) : State * Toast :=
  match Str.truthy (newEarning s), selectedPlayer s with
  | true, Some selected =>
      let amount := parseFloat (newEarning s) in
      if Num.isNaN amount then
        (s, {| title := "Invalid Amount";
               description := Text "Please enter a valid number.";
               variant := Destructive |})
      else
        let updatedPlayers :=
          map (updatePlayer today (name selected) amount) (players s) in
        let isPositive := (amount >? Num.zero)%num in
        (setNewEarning ""
           (setSelectedPlayer (findByName (name selected) updatedPlayers)
              (setPlayers updatedPlayers s)),
         {| title := if isPositive then "Winning Added!" else "Loss Recorded";
            description := Recorded isPositive amount (name selected);
            variant := Default |})
  | _, _ =>
      (s, {| title := "Invalid Input";
             description :=
               Text "Please enter an earning amount and select a player.";
             variant := Destructive |})
  end.

(** Clicking the row of the [i]-th player of the roster. *)
Definition selectPlayer (i : nat) (s : State) : State :=
  match players s !! i with
  | Some player => setShowAllPlayers false (setSelectedPlayer (Some player) s)
  | None => s
  end.

(** Clicking the "Total Earnings" card. *)
Definition showAll (s : State) : State :=
  setSelectedPlayer None (setShowAllPlayers true s).

(** The events of the component, and the state after each. *)
Inductive Event : Type :=
| TypePlayer (v : string)
| TypeEarning (v : string)
| AddPlayer
| AddEarning (today : string)
| SelectPlayer (i : nat)
| ShowAll.

Definition step (s : State) (e : Event) : State :=
  match e with
  | TypePlayer v => setNewPlayer v s
  | TypeEarning v => setNewEarning v s
  | AddPlayer => fst (handleAddPlayer s)
  | AddEarning today => fst (handleAddEarning today s)
  | SelectPlayer i => selectPlayer i s
  | ShowAll => showAll s
  end.

Definition run (s : State) (es : list Event) : State := fold_left step es s.

Inductive reachable : State -> Prop :=
| reachable_initial : reachable initial
| reachable_step s e : reachable s -> reachable (step s e).

(** ** Derived values *)

Definition totalPlayers (ps : list Player) : nat := length ps.

(** [players.reduce((sum, player) => sum + player.totalEarnings, 0)] *)
Definition totalWinnings (ps : list Player) : number :=
  fold_left (fun sum player => (sum + totalEarnings player)%num) ps Num.zero.

Definition profitablePlayers (ps : list Player) : nat :=
  length (filter (fun player => (totalEarnings player >? Num.zero)%num = true) ps).

(** [totalPlayers > 0 ? Math.round((profitablePlayers / totalPlayers) * 100) : 0] *)
Definition winRate (ps : list Player) : number :=
  if 0 <? totalPlayers ps then
    Math_round
      (Num.of_nat (profitablePlayers ps) / Num.of_nat (totalPlayers ps)
       * Num.of_nat 100)%num
  else Num.zero.

(** ** The comparison chart: [generateAllPlayersData] *)

(** A property value of a chart row. *)
Inductive Value : Type :=
| VString (s : string)
| VNumber (n : number)
| VNull.

(** [Set.prototype.add] on a set kept in insertion order. *)
Definition Set_add (x : string) (s : list string) : list string :=
  if decide (x ∈ s) then s else s ++ [x].

(** The labels of all earnings of all players, as [Array.from(allMatches)]. *)
Definition allMatches (ps : list Player) : list string :=
  fold_left
    (fun acc player =>
       fold_left (fun acc earning => Set_add (match_ earning) acc)
         (earnings player) acc)
    ps [].

(** The default order of [Array.prototype.sort]: strings compared code unit
    by code unit. *)
Module StringOrder <: Orders.TotalLeBool.
Definition t := string.
Definition leb := String.leb.
Definition leb_total :
  forall a1 a2, leb a1 a2 = true \/ leb a2 a1 = true := String.leb_total.
End StringOrder.

Module StringSort := Sort StringOrder.

Definition sortedMatches (ps : list Player) : list string :=
  StringSort.sort (allMatches ps).

(** [player.earnings.find(e => e.match === match)] *)
Definition findEarning (m : string) (player : Player) : option Earning :=
  List.find (fun e => String.eqb (match_ e) m) (earnings player).

(** [earning ? earning.total : null] *)
Definition pointValue (m : string) (player : Player) : Value :=
  match findEarning m player with
  | Some earning => VNumber (total earning)
  | None => VNull
  end.

(** An object: its own properties, and whether its prototype is still
    [Object.prototype] or has been set to [null]. *)
Record Obj : Type := mkObj {
  props : gmap string Value;
  nullProto : bool
}.

(** [o[k] = v].  Every key but "__proto__" gets an own property.  The key
    "__proto__" is inherited from [Object.prototype] as an accessor: its
    setter sets the prototype to [null] when [v] is [null] and does nothing
    when [v] is a number or a string, and no own property is made; once the
    prototype is [null] the accessor is gone and "__proto__" is a key as any
    other. *)
Definition assign (k : string) (v : Value) (o : Obj) : Obj :=
  if String.eqb k "__proto__" && negb (nullProto o) then
    match v with
    | VNull => {| props := props o; nullProto := true |}
    | _ => o
    end
  else {| props := <[k := v]> (props o); nullProto := nullProto o |}.

(** One row of the chart: the object [{ match }] after the assignment
    [dataPoint[player.name] = ...] for each player in roster order. *)
Definition dataPoint (ps : list Player) (m : string) : Obj :=
  fold_left
    (fun dp player => assign (name player) (pointValue m player) dp)
    ps {| props := {[ "match" := VString m ]}; nullProto := false |}.

Definition generateAllPlayersData (ps : list Player) : list Obj :=
  map (dataPoint ps) (sortedMatches ps).

(** ** Rendering decisions *)

(** Player colors for the multi-player chart. *)
Definition playerColors : list string :=
  [ "hsl(var(--success))"; "hsl(var(--primary))"; "hsl(var(--danger))";
    "#8B5CF6"; "#F59E0B"; "#10B981"; "#EF4444"; "#3B82F6"; "#8B5A2B";
    "#EC4899" ].

(** [playerColors[idx % playerColors.length]]; [None] stands for
    [undefined]. *)
Definition lineColor (idx : nat) : option string :=
  playerColors !! (idx mod length playerColors).

(** [selectedPlayer?.name === player.name]: whether the roster row of
    [player] is drawn as the selected one. *)
Definition rowSelected (s : State) (player : Player) : bool :=
  match selectedPlayer s with
  | Some selected => String.eqb (name selected) (name player)
  | None => false
  end.

(** What the performance card shows. *)
Inductive Panel : Type :=
  (** the comparison chart, with its data *)
| ComparisonChart (data : list Obj)
  (** "No earnings data available. ..." *)
| NoEarningsData
  (** the form of the selected player, the chart of its earnings when it has
      some, and the list of recent earnings *)
| PlayerPanel (chart : option (list Earning)) (recent : list Earning)
  (** "Select a player from the left panel ..." *)
| SelectPrompt.

Definition panel (s : State) : Panel :=
  if showAllPlayers s then
    if (0 <? length (players s))
       && existsb (fun p => 0 <? length (earnings p)) (players s)
    then ComparisonChart (generateAllPlayersData (players s))
    else NoEarningsData
  else
    match selectedPlayer s with
    | Some selected =>
        PlayerPanel
          (if 0 <? length (earnings selected) then Some (earnings selected)
           else None)
          (if 0 <? length (earnings selected) then rev (earnings selected)
           else [])
    | None => SelectPrompt
    end.

(** ** Vocabulary of the properties *)

(** A handler succeeded when the toast it raised is not a destructive one:
    every early [return] of the two handlers raises a destructive toast, and
    the success path raises a default one. *)
Definition succeeded (r : State * Toast) : bool :=
  match variant (snd r) with
  | Default => true
  | Destructive => false
  end.

(** The sum of the [amount] fields, accumulated from [0] in list order. *)
Definition sumAmounts (es : list Earning) : number :=
  fold_left (fun acc e => (acc + amount e)%num) es Num.zero.

(** The record that [handleAddEarning] builds from [player]. *)
Definition withEarning (today : string) (a : number) (player : Player) : Player :=
  {| name := name player;
     earnings :=
       earnings player ++
       [{| match_ := "Ticket " +:+ Str.of_nat (length (earnings player) + 1);
           amount := a;
           total := (totalEarnings player + a)%num;
           date := today |}];
     totalEarnings := (totalEarnings player + a)%num |}.

(** The invariant of one player record. *)
Definition consistent (p : Player) : Prop :=
  totalEarnings p = sumAmounts (earnings p)
  /\ forall i e, earnings p !! i = Some e ->
                 total e = sumAmounts (take (S i) (earnings p)).

(** The invariant of a state: every roster record and the selected record
    are consistent. *)
Definition state_consistent (s : State) : Prop :=
  Forall consistent (players s)
  /\ forall p, selectedPlayer s = Some p -> consistent p.

(** The words of the specification for an acceptable amount: the whole of
    the string, with nothing left over, reads as a decimal number, and that
    number is finite. *)
Definition parsesEntirelyAsFiniteDecimal (s : string) : bool :=
  match strDecimalLiteral s with
  | Some (v, EmptyString) => Num.isFinite v
  | _ => false
  end.

(** An event that types a player name types one without white space around
    it. *)
Definition typesTrimmedName (e : Event) : Prop :=
  match e with
  | TypePlayer v => Str.trim v = v
  | _ => True
  end.

(** The code units of a string, in order. *)
Fixpoint codeUnits (s : string) : list ascii :=
  match s with
  | EmptyString => []
  | String c s' => c :: codeUnits s'
  end.

(** A stored name: not empty, and unchanged by [trim]. *)
Definition trimmedName (p : Player) : Prop :=
  name p <> "" /\ Str.trim (name p) = name p.

(** The earnings of a record carry the labels "Ticket 1", "Ticket 2", ...
    in order. *)
Definition numbered (p : Player) : Prop :=
  forall i e, earnings p !! i = Some e ->
              match_ e = "Ticket " +:+ Str.of_nat (i + 1).

(** The roster has no two names that are equal once lower-cased. *)
Definition uniqueNames (ps : list Player) : Prop :=
  NoDup (map (fun p => Str.toLowerCase (name p)) ps).

(** The selection and the view mode, in one invariant: the selected record
    is a record of the roster, and the comparison view has no selection. *)
Definition selection_ok (s : State) : Prop :=
  (forall p, selectedPlayer s = Some p -> p ∈ players s)
  /\ (showAllPlayers s = true -> selectedPlayer s = None).

(** A string that does not start with white space. *)
Definition startsClean (s : string) : Prop :=
  match s with
  | String c _ => Str.isWhiteSpace c = false
  | EmptyString => True
  end.

(** A string of decimal digits. *)
Definition allDigits (s : string) : Prop :=
  Forall (fun c => isDigit c = true) (codeUnits s).

(** The win rate in the words of the specification,
    [round(100 * profitablePlayers / totalPlayers)]: the product first, then
    the quotient, then [Math.round]. *)
Definition specWinRate (profitable total : nat) : number :=
  Math_round
    (Num.of_nat 100 * Num.of_nat profitable / Num.of_nat total)%num.

(** The value of a primitive binary64 float of the proof assistant, when it
    is finite. *)
Definition floatValue (f : PrimFloat.float) : option Q :=
  match FloatOps.Prim2SF f with
  | SpecFloat.S754_zero _ => Some 0%Q
  | SpecFloat.S754_finite s m e =>
      Some ((if s then - inject_Z (Zpos m) else inject_Z (Zpos m)) * Num.pow2 e)%Q
  | _ => None
  end.

(** [(p / t) * 100] on primitive floats and on [number] give the same
    value. *)
Definition sameQuotientPercent (p t : nat) : bool :=
  let f n := PrimFloat.of_uint63 (Uint63.of_Z (Z.of_nat n)) in
  match (Num.of_nat p / Num.of_nat t * Num.of_nat 100)%num,
        floatValue (PrimFloat.mul (PrimFloat.div (f p) (f t)) (f 100))
  with
  | Fin q, Some v => Qeq_bool q v
  | _, _ => false
  end.

(** Of two roster players of one name the earlier has at least as many
    earnings as the later, and the selected record is in the roster. *)
Definition namesakes_ordered (s : State) : Prop :=
  (forall i j p q,
      i <= j -> players s !! i = Some p -> players s !! j = Some q ->
      name p = name q -> length (earnings q) <= length (earnings p))
  /\ (forall sel, selectedPlayer s = Some sel -> sel ∈ players s).

(** * Properties *)

Section HandlerFacts.

(** The date stamped on the earnings added in this section. *)
Variable today : string.

Lemma truthy_false s : Str.truthy s = false <-> s = "".
Proof. destruct s; simpl; split; congruence. Qed.

Lemma truthy_true s : Str.truthy s = true <-> s <> "".
Proof. destruct s; simpl; split; congruence. Qed.

Lemma updatePlayer_same sel a p :
  name p = sel -> updatePlayer today sel a p = withEarning today a p.
Proof.
  intros H. unfold updatePlayer, withEarning.
  apply String.eqb_eq in H. now rewrite H.
Qed.

Lemma updatePlayer_other sel a p :
  name p <> sel -> updatePlayer today sel a p = p.
Proof.
  intros H. unfold updatePlayer.
  apply String.eqb_neq in H. now rewrite H.
Qed.

Lemma updatePlayer_name sel a p :
  name (updatePlayer today sel a p) = name p.
Proof.
  unfold updatePlayer. now destruct (String.eqb (name p) sel).
Qed.

(** The three ways [handleAddPlayer] can end. *)
Lemma handleAddPlayer_cases s :
  (Str.trim (newPlayer s) = ""
   /\ handleAddPlayer s =
        (s, mkToast "Invalid Input" (Text "Please enter a player name.")
              Destructive))
  \/ (Str.trim (newPlayer s) <> ""
      /\ nameTaken (players s) (newPlayer s) = true
      /\ handleAddPlayer s =
           (s, mkToast "Player Exists"
                 (Text "A player with this name already exists.")
                 Destructive))
  \/ (Str.trim (newPlayer s) <> ""
      /\ nameTaken (players s) (newPlayer s) = false
      /\ handleAddPlayer s =
           (setNewPlayer ""
              (setPlayers
                 (players s ++ [mkPlayer (Str.trim (newPlayer s)) [] Num.zero])
                 s),
            mkToast "Player Added"
              (Text (newPlayer s +:+ " has been added to the dashboard."))
              Default)).
Proof.
  unfold handleAddPlayer.
  destruct (Str.truthy (Str.trim (newPlayer s))) eqn:Ht; simpl.
  - apply truthy_true in Ht.
    destruct (nameTaken (players s) (newPlayer s)) eqn:Hn; auto 10.
  - apply truthy_false in Ht. auto.
Qed.

(** The three ways [handleAddEarning] can end. *)
Lemma handleAddEarning_cases s :
  ((newEarning s = "" \/ selectedPlayer s = None)
   /\ handleAddEarning today s =
        (s, mkToast "Invalid Input"
              (Text "Please enter an earning amount and select a player.")
              Destructive))
  \/ (exists sel,
        newEarning s <> "" /\ selectedPlayer s = Some sel
        /\ Num.isNaN (parseFloat (newEarning s)) = true
        /\ handleAddEarning today s =
             (s, mkToast "Invalid Amount"
                   (Text "Please enter a valid number.") Destructive))
  \/ (exists sel,
        newEarning s <> "" /\ selectedPlayer s = Some sel
        /\ Num.isNaN (parseFloat (newEarning s)) = false
        /\ handleAddEarning today s =
             (let a := parseFloat (newEarning s) in
              let ps := map (updatePlayer today (name sel) a) (players s) in
              (setNewEarning ""
                 (setSelectedPlayer (findByName (name sel) ps)
                    (setPlayers ps s)),
               mkToast
                 (if (a >? Num.zero)%num then "Winning Added!"
                  else "Loss Recorded")
                 (Recorded (a >? Num.zero)%num a (name sel)) Default))).
Proof.
  unfold handleAddEarning.
  destruct (Str.truthy (newEarning s)) eqn:Ht.
  - apply truthy_true in Ht.
    destruct (selectedPlayer s) as [sel|] eqn:Hs; [|auto].
    destruct (Num.isNaN (parseFloat (newEarning s))) eqn:Hn.
    + right; left. exists sel. auto.
    + right; right. exists sel. auto.
  - apply truthy_false in Ht. auto.
Qed.

(** A successful [handleAddEarning]: what it read and what it wrote. *)
Lemma handleAddEarning_success s :
  succeeded (handleAddEarning today s) = true ->
  exists sel,
    selectedPlayer s = Some sel
    /\ newEarning s <> ""
    /\ Num.isNaN (parseFloat (newEarning s)) = false
    /\ players (fst (handleAddEarning today s)) =
         map (updatePlayer today (name sel) (parseFloat (newEarning s)))
           (players s)
    /\ selectedPlayer (fst (handleAddEarning today s)) =
         findByName (name sel)
           (map (updatePlayer today (name sel) (parseFloat (newEarning s)))
              (players s)).
Proof.
  intros Hok.
  destruct (handleAddEarning_cases s)
    as [[_ E] | [(sel & _ & _ & _ & E) | (sel & Hne & Hsel & Hnan & E)]];
    rewrite E in Hok |- *; try discriminate Hok.
  exists sel. simpl. auto.
Qed.

Lemma findByName_map_update sel a ps :
  findByName sel (map (updatePlayer today sel a) ps) =
  withEarning today a <$> findByName sel ps.
Proof.
  unfold findByName. induction ps as [|p ps IH]; simpl; [reflexivity|].
  rewrite updatePlayer_name.
  destruct (String.eqb (name p) sel) eqn:E.
  - apply String.eqb_eq in E. simpl. now rewrite updatePlayer_same.
  - exact IH.
Qed.

End HandlerFacts.

(** From [Hok : succeeded (handleAddEarning today s) = true] and
    [Hsel : selectedPlayer s = Some sel], the new roster [Hps] and the new
    selection [Hnew]. *)
Ltac read_success Hok Hsel Hps Hnew :=
  let sel' := fresh "sel'" in
  let Hsel' := fresh "Hsel'" in
  destruct (handleAddEarning_success _ _ Hok)
    as (sel' & Hsel' & _ & _ & Hps & Hnew);
  rewrite Hsel in Hsel'; injection Hsel' as <-.

(** ** Rejections change nothing (C7) *)

(** C7. Every validation failure leaves the whole state as it was: for
    [handleAddPlayer] an empty trimmed name or a name already taken, for
    [handleAddEarning] an empty input, no selected player or an input that
    [parseFloat] maps to NaN.  The handler returns before any [set...] call,
    so the roster, each player's earnings and totals, and the selection are
    those of the state it read; the toast it raises is a destructive one. *)
Theorem validation_failure_changes_nothing :
  (forall s,
      Str.trim (newPlayer s) = "" \/ nameTaken (players s) (newPlayer s) = true ->
      fst (handleAddPlayer s) = s
      /\ succeeded (handleAddPlayer s) = false)
  /\ (forall today s,
        newEarning s = "" \/ selectedPlayer s = None
        \/ Num.isNaN (parseFloat (newEarning s)) = true ->
        fst (handleAddEarning today s) = s
        /\ succeeded (handleAddEarning today s) = false).
Proof.
  split.
  - intros s H.
    destruct (handleAddPlayer_cases s)
      as [[_ E] | [(_ & _ & E) | (Hne & Hfree & _)]].
    + now rewrite E.
    + now rewrite E.
    + destruct H as [H | H]; congruence.
  - intros today s H.
    destruct (handleAddEarning_cases today s)
      as [[_ E] | [(sel & _ & _ & _ & E) | (sel & Hne & Hsel & Hnan & _)]].
    + now rewrite E.
    + now rewrite E.
    + destruct H as [H | [H | H]]; congruence.
Qed.

Lemma validation_failure_changes_nothing_witness :
  let s1 :=
    mkState [mkPlayer "Alice" [] Num.zero] (Some (mkPlayer "Alice" [] Num.zero))
      "alice" "abc" false in
  (fst (handleAddPlayer s1) = s1 /\ succeeded (handleAddPlayer s1) = false)
  /\ (fst (handleAddEarning "2024-01-01" s1) = s1
      /\ succeeded (handleAddEarning "2024-01-01" s1) = false).
Proof.
  intros s1. split.
  - apply (proj1 validation_failure_changes_nothing s1).
    right. reflexivity.
  - apply (proj2 validation_failure_changes_nothing "2024-01-01" s1).
    right; right. reflexivity.
Defined.

(** ** Adding a player (C10) *)

Lemma nameTaken_spec ps input :
  nameTaken ps input = true <->
  exists p, p ∈ ps /\ Str.toLowerCase (name p) = Str.toLowerCase input.
Proof.
  unfold nameTaken. rewrite existsb_exists. split.
  - intros (p & Hin & E). exists p. split.
    + now apply list_elem_of_In.
    + now apply String.eqb_eq.
  - intros (p & Hin & E). exists p. split.
    + now apply list_elem_of_In.
    + now apply String.eqb_eq.
Qed.

(** C10. [handleAddPlayer] succeeds exactly when the trimmed input is not
    empty and no stored name equals the input, both lower-cased; the input
    enters that comparison as typed, not trimmed.  On success the roster
    gains, at its end, one player whose name is the trimmed input, with no
    earnings and total zero, and nothing else of the roster changes. *)
Theorem addPlayer_inserts_trimmed_name :
  forall s,
    (succeeded (handleAddPlayer s) = true <->
       Str.trim (newPlayer s) <> ""
       /\ forall p, p ∈ players s ->
                    Str.toLowerCase (name p) <> Str.toLowerCase (newPlayer s))
    /\ (succeeded (handleAddPlayer s) = true ->
        players (fst (handleAddPlayer s)) =
          players s ++
          [{| name := Str.trim (newPlayer s); earnings := [];
              totalEarnings := Num.zero |}]
        /\ selectedPlayer (fst (handleAddPlayer s)) = selectedPlayer s).
Proof.
  intros s.
  destruct (handleAddPlayer_cases s)
    as [[He E] | [(Hne & Ht & E) | (Hne & Hfree & E)]]; rewrite E.
  - split; [split|]; [discriminate | intros [H _]; contradiction | discriminate].
  - split; [split|]; try discriminate.
    intros [_ H]. apply nameTaken_spec in Ht as (p & Hin & Hp).
    now destruct (H p Hin).
  - split; [split|]; try (intros _; simpl; auto; fail).
    intros _. split; [assumption|].
    intros p Hin Hp.
    assert (nameTaken (players s) (newPlayer s) = true) as Ht
      by (apply nameTaken_spec; eauto).
    congruence.
Qed.

Lemma addPlayer_inserts_trimmed_name_witness :
  let s := mkState [mkPlayer "Alice" [] Num.zero] None "  Bob " "" false in
  players (fst (handleAddPlayer s)) =
    [mkPlayer "Alice" [] Num.zero; mkPlayer "Bob" [] Num.zero]
  /\ selectedPlayer (fst (handleAddPlayer s)) = None.
Proof.
  intros s.
  apply (proj2 (addPlayer_inserts_trimmed_name s)).
  reflexivity.
Defined.

(** ** Adding an earning (C4, C8, C9) *)

(** C4. A successful [handleAddEarning] with parsed amount [a] appends exactly
    one earning to the roster record named like the selected player: with
    total [t] and [n] earnings before, the new last earning is
    ("Ticket " n+1, a, t + a), the earlier earnings are kept, and the total
    becomes [t + a]; the roster keeps its length.  From a fresh player
    "Alice", adding 50 and then -20 gives earnings
    [("Ticket 1", 50, 50); ("Ticket 2", -20, 30)] and total 30. *)
Theorem addEarning_appends_ticket :
  (forall today s sel i p,
      succeeded (handleAddEarning today s) = true ->
      selectedPlayer s = Some sel ->
      players s !! i = Some p ->
      name p = name sel ->
      let a := parseFloat (newEarning s) in
      let t := totalEarnings p in
      let n := length (earnings p) in
      players (fst (handleAddEarning today s)) !! i =
        Some {| name := name p;
                earnings :=
                  earnings p ++
                  [{| match_ := "Ticket " +:+ Str.of_nat (n + 1);
                      amount := a; total := (t + a)%num; date := today |}];
                totalEarnings := (t + a)%num |}
      /\ length (players (fst (handleAddEarning today s))) = length (players s))
  /\ (forall d1 d2,
        players
          (run initial
             [TypePlayer "Alice"; AddPlayer; SelectPlayer 0;
              TypeEarning "50"; AddEarning d1;
              TypeEarning "-20"; AddEarning d2]) =
        [{| name := "Alice";
            earnings :=
              [{| match_ := "Ticket 1"; amount := Num.of_Z 50;
                  total := Num.of_Z 50; date := d1 |};
               {| match_ := "Ticket 2"; amount := Num.of_Z (-20);
                  total := Num.of_Z 30; date := d2 |}];
            totalEarnings := Num.of_Z 30 |}]).
Proof.
  split.
  - intros today s sel i p Hok Hsel Hi Hname a t n.
    read_success Hok Hsel Hps Hnew.
    rewrite Hps. split.
    + rewrite list_lookup_fmap, Hi. simpl.
      now rewrite (updatePlayer_same _ _ _ _ Hname).
    + apply length_map.
  - intros d1 d2. vm_compute. reflexivity.
Qed.

Lemma addEarning_appends_ticket_witness :
  let alice := mkPlayer "Alice" [] Num.zero in
  let s := mkState [alice] (Some alice) "" "50" false in
  players (fst (handleAddEarning "2024-01-01" s)) !! 0 =
    Some (mkPlayer "Alice"
            [mkEarning "Ticket 1" (parseFloat "50")
               (Num.zero + parseFloat "50")%num "2024-01-01"]
            (Num.zero + parseFloat "50")%num)
  /\ length (players (fst (handleAddEarning "2024-01-01" s))) = 1.
Proof.
  intros alice s.
  apply (proj1 addEarning_appends_ticket "2024-01-01" s alice 0 alice);
    reflexivity.
Defined.

(** C8. A successful [handleAddEarning] leaves every player whose name
    differs from the selected player's name as it was, at the same place of
    the roster: same name, same earnings, same total. *)
Theorem addEarning_frame :
  forall today s sel i p,
    succeeded (handleAddEarning today s) = true ->
    selectedPlayer s = Some sel ->
    players s !! i = Some p ->
    name p <> name sel ->
    players (fst (handleAddEarning today s)) !! i = Some p.
Proof.
  intros today s sel i p Hok Hsel Hi Hname.
  read_success Hok Hsel Hps Hnew.
  rewrite Hps, list_lookup_fmap, Hi. simpl.
  now rewrite (updatePlayer_other _ _ _ _ Hname).
Qed.

Lemma addEarning_frame_witness :
  let alice := mkPlayer "Alice" [] Num.zero in
  let bob := mkPlayer "Bob" [] Num.zero in
  let s := mkState [alice; bob] (Some alice) "" "50" false in
  players (fst (handleAddEarning "2024-01-01" s)) !! 1 = Some bob.
Proof.
  intros alice bob s.
  apply (addEarning_frame "2024-01-01" s alice 1 bob);
    [reflexivity | reflexivity | reflexivity | discriminate].
Defined.

Section Reselect.

(** Looking a name up finds the first roster record of that name. *)
Lemma findByName_first n ps : forall i p,
  ps !! i = Some p -> name p = n ->
  (forall j q, j < i -> ps !! j = Some q -> name q <> n) ->
  findByName n ps = Some p.
Proof.
  unfold findByName. induction ps as [|x ps IH]; intros i p Hi Hn Hfirst.
  - now rewrite lookup_nil in Hi.
  - simpl. destruct i as [|i]; simpl in Hi.
    + injection Hi as ->. apply String.eqb_eq in Hn. now rewrite Hn.
    + assert (String.eqb (name x) n = false) as ->.
      { apply String.eqb_neq. apply (Hfirst 0 x); [lia | reflexivity]. }
      apply (IH i p Hi Hn). intros j q Hj Hq.
      apply (Hfirst (S j) q); [lia | exact Hq].
Qed.

Lemma findByName_member n ps p :
  p ∈ ps -> name p = n -> exists q, findByName n ps = Some q.
Proof.
  intros Hin Hn. unfold findByName.
  destruct (List.find (fun p => String.eqb (name p) n) ps) as [q|] eqn:E;
    [now exists q|].
  apply list_elem_of_In in Hin. pose proof (find_none _ _ E p Hin) as H.
  simpl in H. apply String.eqb_neq in H. contradiction.
Qed.

Lemma findByName_absent n ps :
  (forall p, p ∈ ps -> name p <> n) -> findByName n ps = None.
Proof.
  intros H. unfold findByName.
  destruct (List.find (fun p => String.eqb (name p) n) ps) as [q|] eqn:E;
    [|reflexivity].
  apply find_some in E as [Hin Hn]. apply String.eqb_eq in Hn.
  apply list_elem_of_In in Hin. now destruct (H q Hin).
Qed.

Lemma findByName_Some n ps p :
  findByName n ps = Some p ->
  exists i,
    ps !! i = Some p /\ name p = n
    /\ forall j q, j < i -> ps !! j = Some q -> name q <> n.
Proof.
  unfold findByName. induction ps as [|x ps IH]; simpl; [discriminate|].
  destruct (String.eqb (name x) n) eqn:E.
  - intros [= <-]. exists 0. split; [reflexivity|].
    split; [now apply String.eqb_eq | intros j q Hj; lia].
  - intros H. destruct (IH H) as (i & Hi & Hn & Hfirst).
    exists (S i). split; [exact Hi|]. split; [exact Hn|].
    intros j q Hj Hq. destruct j as [|j]; simpl in Hq.
    + injection Hq as <-. now apply String.eqb_neq.
    + apply (Hfirst j q); [lia | exact Hq].
Qed.

Lemma updatePlayer_length today sel a p :
  length (earnings (updatePlayer today sel a p)) =
  length (earnings p) + (if String.eqb (name p) sel then 1 else 0).
Proof.
  unfold updatePlayer. destruct (String.eqb (name p) sel); simpl.
  - now rewrite length_app.
  - lia.
Qed.

Lemma step_namesakes_ordered s e :
  namesakes_ordered s -> namesakes_ordered (step s e).
Proof.
  intros [Hord Hin]. destruct e as [v | v | | today | k | ]; simpl.
  - split; assumption.
  - split; assumption.
  - destruct (handleAddPlayer_cases s)
      as [[_ E] | [(_ & _ & E) | (_ & _ & E)]]; rewrite E; simpl;
      try (split; assumption).
    split; simpl.
    + intros i j p q Hij Hi Hj Hn.
      destruct (decide (j < length (players s))) as [Hlt | Hge].
      * rewrite lookup_app_l in Hi, Hj by lia. now apply (Hord i j).
      * rewrite lookup_app_r in Hj by lia.
        destruct (j - length (players s)) as [|d] eqn:Ed; simpl in Hj;
          [|now rewrite lookup_nil in Hj].
        injection Hj as <-. simpl. lia.
    + intros sel Hsel. apply elem_of_app. left. now apply Hin.
  - destruct (handleAddEarning_cases today s)
      as [[_ E] | [(sel & _ & _ & _ & E) | (sel & _ & _ & _ & E)]];
      rewrite E; simpl; try (split; assumption).
    split; simpl.
    + intros i j p q Hij Hi Hj Hn.
      rewrite list_lookup_fmap in Hi, Hj.
      destruct (players s !! i) as [p0|] eqn:Hi0; [|discriminate].
      destruct (players s !! j) as [q0|] eqn:Hj0; [|discriminate].
      injection Hi as <-. injection Hj as <-.
      rewrite !updatePlayer_name in Hn. rewrite !updatePlayer_length, Hn.
      pose proof (Hord i j p0 q0 Hij Hi0 Hj0 Hn). lia.
    + intros x Hx. unfold findByName in Hx. apply find_some in Hx as [Hx _].
      now apply list_elem_of_In.
  - unfold selectPlayer. destruct (players s !! k) as [p|] eqn:Hk; simpl.
    + split; simpl; [assumption|]. intros x [= <-].
      eapply list_elem_of_lookup_2. exact Hk.
    + split; assumption.
  - split; simpl; [assumption | discriminate].
Qed.

Lemma reachable_namesakes_ordered s : reachable s -> namesakes_ordered s.
Proof.
  induction 1 as [| s e _ IH].
  - split; simpl; [|discriminate]. intros i j p q _ Hi.
    now rewrite lookup_nil in Hi.
  - now apply step_namesakes_ordered.
Qed.

End Reselect.

(** C9. After a successful [handleAddEarning] the selection is resolved by
    name in the new roster.  It is the record built from the first roster
    player of the selected name: the record now at that player's place in
    the roster, of the same name, whose last earning is the new one, and
    different from the record it replaces.  Whenever the selected record is
    in the roster, the selection is therefore not empty and carries the new
    earning; in every reachable state it is moreover a record with more
    earnings than the selection before, never that stale record.  When no
    player of the roster, before or after, has the selected name, the
    selection becomes empty. *)
Theorem addEarning_reselects :
  forall today s sel,
    succeeded (handleAddEarning today s) = true ->
    selectedPlayer s = Some sel ->
    let s' := fst (handleAddEarning today s) in
    let a := parseFloat (newEarning s) in
    (forall i p,
        players s !! i = Some p ->
        name p = name sel ->
        (forall j q, j < i -> players s !! j = Some q -> name q <> name sel) ->
        selectedPlayer s' = Some (withEarning today a p)
        /\ players s' !! i = Some (withEarning today a p)
        /\ name (withEarning today a p) = name sel
        /\ last (earnings (withEarning today a p)) =
             Some {| match_ := "Ticket " +:+ Str.of_nat (length (earnings p) + 1);
                     amount := a;
                     total := (totalEarnings p + a)%num;
                     date := today |}
        /\ withEarning today a p <> p)
    /\ (sel ∈ players s ->
        exists p' e,
          selectedPlayer s' = Some p'
          /\ p' ∈ players s'
          /\ name p' = name sel
          /\ last (earnings p') = Some e
          /\ amount e = a /\ date e = today)
    /\ (reachable s ->
        exists p',
          selectedPlayer s' = Some p'
          /\ length (earnings sel) < length (earnings p')
          /\ p' <> sel)
    /\ ((forall p, p ∈ players s -> name p <> name sel) ->
        selectedPlayer s' = None)
    /\ ((forall p, p ∈ players s' -> name p <> name sel) ->
        selectedPlayer s' = None).
Proof.
  intros today s sel Hok Hsel s' a.
  read_success Hok Hsel Hps Hnew.
  subst s'. rewrite Hnew, Hps. fold a.
  rewrite findByName_map_update.
  split; [|split; [|split; [|split]]].
  - intros i p Hi Hn Hfirst.
    rewrite (findByName_first (name sel) (players s) i p Hi Hn Hfirst).
    split; [reflexivity|]. split.
    { rewrite list_lookup_fmap, Hi. simpl. now rewrite updatePlayer_same. }
    split; [exact Hn|]. split; [apply last_snoc|].
    intros E. apply (f_equal (fun q => length (earnings q))) in E.
    simpl in E. rewrite length_app in E. simpl in E. lia.
  - intros Hin.
    destruct (findByName_member (name sel) (players s) sel Hin eq_refl)
      as [p Hp].
    rewrite Hp. simpl.
    unfold findByName in Hp. apply find_some in Hp as [Hpin Hn].
    apply String.eqb_eq in Hn.
    exists (withEarning today a p). eexists.
    split; [reflexivity|]. split.
    { rewrite <- (updatePlayer_same today (name sel) a p Hn).
      apply list_elem_of_fmap. exists p. split; [reflexivity|].
      now apply list_elem_of_In. }
    split; [exact Hn|]. split; [apply last_snoc|]. split; reflexivity.
  - intros Hr.
    destruct (reachable_namesakes_ordered s Hr) as [Hord Hin].
    pose proof (Hin sel Hsel) as Hsel_in.
    destruct (findByName_member (name sel) (players s) sel Hsel_in eq_refl)
      as [p Hp].
    rewrite Hp. simpl.
    destruct (findByName_Some _ _ _ Hp) as (i & Hi & Hn & Hfirst).
    apply list_elem_of_lookup in Hsel_in as [j Hj].
    assert (i <= j) as Hij.
    { destruct (decide (i <= j)) as [H | H]; [exact H|].
      destruct (Hfirst j sel); [lia | exact Hj | reflexivity]. }
    pose proof (Hord i j p sel Hij Hi Hj Hn) as Hlen.
    assert (length (earnings sel) < length (earnings (withEarning today a p)))
      as Hlt by (simpl; rewrite length_app; simpl; lia).
    exists (withEarning today a p).
    split; [reflexivity|]. split; [exact Hlt|].
    intros E. rewrite E in Hlt. lia.
  - intros Hnone. now rewrite (findByName_absent _ _ Hnone).
  - intros Hnone. rewrite findByName_absent; [reflexivity|].
    intros p Hp Hn. apply (Hnone (updatePlayer today (name sel) a p)).
    + apply list_elem_of_fmap. now exists p.
    + now rewrite updatePlayer_name.
Qed.

Lemma addEarning_reselects_witness :
  let alice := mkPlayer "Alice" [] Num.zero in
  let s :=
    step (step (step (step (step (step initial
      (TypePlayer "Bob")) AddPlayer) (TypePlayer "Alice")) AddPlayer)
      (SelectPlayer 1)) (TypeEarning "50") in
  let s' := fst (handleAddEarning "2024-01-01" s) in
  let alice' :=
    mkPlayer "Alice"
      [mkEarning "Ticket 1" (parseFloat "50") (Num.zero + parseFloat "50")%num
         "2024-01-01"]
      (Num.zero + parseFloat "50")%num in
  (selectedPlayer s' = Some alice'
   /\ players s' !! 1 = Some alice'
   /\ name alice' = "Alice"
   /\ last (earnings alice') =
        Some (mkEarning "Ticket 1" (parseFloat "50")
                (Num.zero + parseFloat "50")%num "2024-01-01")
   /\ alice' <> alice)
  /\ (exists p' e,
        selectedPlayer s' = Some p'
        /\ p' ∈ players s'
        /\ name p' = "Alice"
        /\ last (earnings p') = Some e
        /\ amount e = parseFloat "50" /\ date e = "2024-01-01")
  /\ (exists p',
        selectedPlayer s' = Some p'
        /\ length (earnings alice) < length (earnings p')
        /\ p' <> alice).
Proof.
  intros alice s.
  destruct (addEarning_reselects "2024-01-01" s alice eq_refl eq_refl)
    as (Hfirst & Hin & Hreach & _ & _).
  split; [|split].
  - apply (Hfirst 1 alice); [reflexivity | reflexivity |].
    intros j q Hj Hq. destruct j as [|j]; [|lia].
    injection Hq as <-. discriminate.
  - apply Hin. right; left.
  - apply Hreach. repeat constructor.
Defined.

(** ** Totals are running sums (C1) *)

Section Consistency.

Variable today : string.

Lemma sumAmounts_snoc es e :
  sumAmounts (es ++ [e]) = (sumAmounts es + amount e)%num.
Proof. unfold sumAmounts. now rewrite fold_left_app. Qed.

Lemma consistent_new n : consistent (mkPlayer n [] Num.zero).
Proof.
  split; [reflexivity|]. intros i e H. simpl in H. now rewrite lookup_nil in H.
Qed.

Lemma consistent_withEarning a p :
  consistent p -> consistent (withEarning today a p).
Proof.
  intros [Htot Hpre]. split; simpl.
  - rewrite sumAmounts_snoc. simpl. now rewrite Htot.
  - intros i e Hi.
    destruct (decide (i < length (earnings p))) as [Hlt | Hge].
    + rewrite lookup_app_l in Hi by exact Hlt.
      rewrite take_app_le by lia. now apply Hpre.
    + rewrite lookup_app_r in Hi by lia.
      destruct (i - length (earnings p)) as [|k] eqn:Ek; simpl in Hi;
        [|now rewrite lookup_nil in Hi].
      injection Hi as <-. simpl.
      rewrite take_ge by (rewrite length_app; simpl; lia).
      rewrite sumAmounts_snoc. simpl. now rewrite Htot.
Qed.

Lemma consistent_updatePlayer sel a p :
  consistent p -> consistent (updatePlayer today sel a p).
Proof.
  intros H. destruct (decide (name p = sel)) as [E | E].
  - rewrite updatePlayer_same by exact E. now apply consistent_withEarning.
  - now rewrite updatePlayer_other by exact E.
Qed.

End Consistency.

Lemma step_consistent s e :
  state_consistent s -> state_consistent (step s e).
Proof.
  intros [Hps Hsel]. destruct e as [v | v | | today | i | ]; simpl.
  - split; assumption.
  - split; assumption.
  - destruct (handleAddPlayer_cases s)
      as [[_ E] | [(_ & _ & E) | (_ & _ & E)]]; rewrite E; simpl;
      try (split; assumption).
    split; simpl; [|assumption].
    apply Forall_app. split; [assumption|].
    constructor; [apply consistent_new | constructor].
  - destruct (handleAddEarning_cases today s)
      as [[_ E] | [(sel & _ & _ & _ & E) | (sel & _ & _ & _ & E)]];
      rewrite E; simpl; try (split; assumption).
    assert (Forall consistent
              (map (updatePlayer today (name sel) (parseFloat (newEarning s)))
                 (players s))) as Hnew.
    { apply Forall_fmap. eapply Forall_impl; [exact Hps|].
      intros p Hp. now apply consistent_updatePlayer. }
    split; simpl; [exact Hnew|].
    intros p Hp. unfold findByName in Hp. apply find_some in Hp as [Hin _].
    rewrite Forall_forall in Hnew. apply Hnew. now apply list_elem_of_In.
  - unfold selectPlayer. destruct (players s !! i) as [p|] eqn:Hi; simpl.
    + split; simpl; [assumption|]. intros q [= <-].
      rewrite Forall_forall in Hps. apply Hps.
      eapply list_elem_of_lookup_2. exact Hi.
    + split; assumption.
  - split; simpl; [assumption | discriminate].
Qed.

Lemma reachable_consistent s : reachable s -> state_consistent s.
Proof.
  induction 1 as [| s e _ IH].
  - split; simpl; [constructor | discriminate].
  - now apply step_consistent.
Qed.

Lemma reachable_run s es : reachable s -> reachable (run s es).
Proof.
  revert s. induction es as [|e es IH]; intros s H; simpl; [exact H|].
  apply IH. now constructor.
Qed.

(** C1. In every state reachable from the initial one by the events of the
    component, every player of the roster has [totalEarnings] equal to the
    sum of the amounts of its earnings, and every earning has [total] equal
    to the sum of the amounts up to and including itself. *)
Theorem totals_are_running_sums :
  forall s p,
    reachable s ->
    p ∈ players s ->
    totalEarnings p = sumAmounts (earnings p)
    /\ forall i e, earnings p !! i = Some e ->
                   total e = sumAmounts (take (S i) (earnings p)).
Proof.
  intros s p Hr Hin.
  destruct (reachable_consistent s Hr) as [Hps _].
  rewrite Forall_forall in Hps. exact (Hps p Hin).
Qed.

Lemma totals_are_running_sums_witness :
  let s :=
    step (step (step (step (step (step (step initial
      (TypePlayer "Alice")) AddPlayer) (SelectPlayer 0))
      (TypeEarning "50")) (AddEarning "2024-01-01"))
      (TypeEarning "-20")) (AddEarning "2024-01-02") in
  let p :=
    mkPlayer "Alice"
      [mkEarning "Ticket 1" (Num.of_Z 50) (Num.of_Z 50) "2024-01-01";
       mkEarning "Ticket 2" (Num.of_Z (-20)) (Num.of_Z 30) "2024-01-02"]
      (Num.of_Z 30) in
  totalEarnings p = sumAmounts (earnings p)
  /\ forall i e, earnings p !! i = Some e ->
                 total e = sumAmounts (take (S i) (earnings p)).
Proof.
  intros s p.
  apply (totals_are_running_sums s p).
  - repeat constructor.
  - vm_compute. left.
Defined.

(** ** Amounts that do not parse (C2) *)

Section ParseFloat.

Lemma neg_not_NaN v : Num.isNaN v = false -> Num.isNaN (Num.neg v) = false.
Proof. now destruct v. Qed.

Lemma strUnsignedDecimalLiteral_not_NaN s v rest :
  strUnsignedDecimalLiteral s = Some (v, rest) -> Num.isNaN v = false.
Proof.
  unfold strUnsignedDecimalLiteral.
  destruct (strip_prefix "Infinity" s) as [r|].
  - now intros [= <- _].
  - destruct (span_digits s) as [ip s1].
    destruct (match s1 with
              | String "." t => span_digits t
              | _ => (EmptyString, s1)
              end) as [fp s2].
    destruct (exponentPart s2) as [e r].
    destruct ip, fp; try discriminate; now intros [= <- _].
Qed.

Lemma strDecimalLiteral_not_NaN s v rest :
  strDecimalLiteral s = Some (v, rest) -> Num.isNaN v = false.
Proof.
  unfold strDecimalLiteral. intros H.
  assert (forall t, match strUnsignedDecimalLiteral t with
                    | Some (v, rest) => Some (Num.neg v, rest)
                    | None => None
                    end = Some (v, rest) -> Num.isNaN v = false) as Hneg.
  { intros t Ht.
    destruct (strUnsignedDecimalLiteral t) as [[w r]|] eqn:E; [|discriminate].
    injection Ht as <- _. apply neg_not_NaN.
    eapply strUnsignedDecimalLiteral_not_NaN; exact E. }
  destruct s as [|c t].
  - eapply strUnsignedDecimalLiteral_not_NaN; exact H.
  - destruct c as [[] [] [] [] [] [] [] []];
      first [ now apply (Hneg t)
            | eapply strUnsignedDecimalLiteral_not_NaN; exact H ].
Qed.

(** [parseFloat] gives NaN exactly when, after the leading white space, no
    prefix of the string is a decimal literal. *)
Lemma parseFloat_NaN s :
  Num.isNaN (parseFloat s) = true <->
  strDecimalLiteral (Str.trimStart s) = None.
Proof.
  unfold parseFloat.
  destruct (strDecimalLiteral (Str.trimStart s)) as [[v r]|] eqn:E.
  - apply strDecimalLiteral_not_NaN in E. rewrite E. split; discriminate.
  - split; reflexivity.
Qed.

End ParseFloat.

(** C2, as the specification states it, fails.  "1.2.3" does not read in
    its entirety as a decimal number, yet [handleAddEarning] accepts it:
    [parseFloat] stops at the second dot, the amount is that of "1.2", and an
    earning is recorded.  "Infinity" is accepted as well, with an amount that
    is not finite. *)
Lemma garbage_suffix_is_accepted :
  let alice := mkPlayer "Alice" [] Num.zero in
  let s := mkState [alice] (Some alice) "" "1.2.3" false in
  let s_inf := mkState [alice] (Some alice) "" "Infinity" false in
  parsesEntirelyAsFiniteDecimal "1.2.3" = false
  /\ parseFloat "1.2.3" = parseFloat "1.2"
  /\ succeeded (handleAddEarning "2024-01-01" s) = true
  /\ players (fst (handleAddEarning "2024-01-01" s)) =
       [withEarning "2024-01-01" (parseFloat "1.2") alice]
  /\ players (fst (handleAddEarning "2024-01-01" s)) <> players s
  /\ parsesEntirelyAsFiniteDecimal "Infinity" = false
  /\ succeeded (handleAddEarning "2024-01-01" s_inf) = true
  /\ players (fst (handleAddEarning "2024-01-01" s_inf)) =
       [withEarning "2024-01-01" (Infinity false) alice].
Proof.
  repeat split. discriminate.
Qed.

(** C2, amended. When the input is empty, or no prefix of it (after leading
    white space) is a decimal literal, so that [parseFloat] gives NaN, as for
    "abc" and "", [handleAddEarning] fails with a destructive toast and leaves
    the state, hence every player's earnings and total, as it was. *)
Theorem unparseable_amount_is_rejected :
  (forall today s,
      newEarning s = ""
      \/ strDecimalLiteral (Str.trimStart (newEarning s)) = None ->
      succeeded (handleAddEarning today s) = false
      /\ fst (handleAddEarning today s) = s)
  /\ strDecimalLiteral (Str.trimStart "abc") = None
  /\ Num.isNaN (parseFloat "abc") = true.
Proof.
  split; [|split; reflexivity].
  intros today s H.
  assert (newEarning s = "" \/ selectedPlayer s = None
          \/ Num.isNaN (parseFloat (newEarning s)) = true) as H'.
  { destruct H as [H | H]; [now left|].
    right; right. now apply parseFloat_NaN. }
  destruct (handleAddEarning_cases today s)
    as [[_ E] | [(sel & _ & _ & _ & E) | (sel & Hne & Hsel & Hnan & _)]].
  - now rewrite E.
  - now rewrite E.
  - destruct H' as [H' | [H' | H']]; congruence.
Qed.

Lemma unparseable_amount_is_rejected_witness :
  let alice := mkPlayer "Alice" [] Num.zero in
  let s := mkState [alice] (Some alice) "" "abc" false in
  succeeded (handleAddEarning "2024-01-01" s) = false
  /\ fst (handleAddEarning "2024-01-01" s) = s.
Proof.
  intros alice s.
  apply (proj1 unparseable_amount_is_rejected "2024-01-01" s).
  right. reflexivity.
Defined.

(** ** Names that differ only by surrounding white space (C3) *)

(** C3. The roster can hold two players of the same name: the taken-name
    test compares the input as typed, while the stored name is the trimmed
    input.  After "Alice" is added, the input " Alice" passes the test, is
    accepted, and is stored as a second "Alice". *)
Theorem untrimmed_duplicate_is_accepted :
  let s1 := run initial [TypePlayer "Alice"; AddPlayer; TypePlayer " Alice"] in
  map name (players s1) = ["Alice"]
  /\ succeeded (handleAddPlayer s1) = true
  /\ map name (players (fst (handleAddPlayer s1))) = ["Alice"; "Alice"]
  /\ reachable (fst (handleAddPlayer s1)).
Proof.
  repeat split.
  change (reachable
            (run initial
               [TypePlayer "Alice"; AddPlayer; TypePlayer " Alice"; AddPlayer])).
  apply reachable_run. constructor.
Qed.

(** ** The comparison chart (C5) *)

Section Order.

Lemma ascii_compare_lt_trans a b c :
  Ascii.compare a b = Lt -> Ascii.compare b c = Lt -> Ascii.compare a c = Lt.
Proof.
  unfold Ascii.compare. rewrite !N.compare_lt_iff. lia.
Qed.

Lemma compare_lt_trans a : forall b c,
  String.compare a b = Lt -> String.compare b c = Lt -> String.compare a c = Lt.
Proof.
  induction a as [|x a IH]; intros [|y b] [|z c]; simpl; try congruence.
  destruct (Ascii.compare x y) eqn:Exy; try discriminate.
  - apply Ascii.compare_eq_iff in Exy. subst y.
    destruct (Ascii.compare x z); try congruence. apply IH.
  - intros _. destruct (Ascii.compare y z) eqn:Eyz; try discriminate.
    + apply Ascii.compare_eq_iff in Eyz. subst z. now rewrite Exy.
    + now rewrite (ascii_compare_lt_trans x y z Exy Eyz).
Qed.

Lemma ltb_trans (a b c : string) :
  (a <? b)%string = true -> (b <? c)%string = true -> (a <? c)%string = true.
Proof.
  unfold String.ltb. intros H1 H2.
  destruct (String.compare a b) eqn:E1; try discriminate.
  destruct (String.compare b c) eqn:E2; try discriminate.
  now rewrite (compare_lt_trans a b c E1 E2).
Qed.

Lemma leb_ltb (a b : string) :
  (a <=? b)%string = true <-> (a <? b)%string = true \/ a = b.
Proof.
  unfold String.leb, String.ltb. split.
  - destruct (String.compare a b) eqn:E; try discriminate; auto.
    right. now apply String.compare_eq_iff.
  - intros [H | ->].
    + now destruct (String.compare a b).
    + assert (String.compare b b = Eq) as ->; [|reflexivity].
      pose proof (String.compare_antisym b b) as H.
      destruct (String.compare b b); simpl in H; congruence.
Qed.

Lemma ltb_irrefl (a : string) : (a <? a)%string = false.
Proof.
  unfold String.ltb. pose proof (String.compare_antisym a a) as H.
  destruct (String.compare a a); simpl in H; congruence.
Qed.

Lemma leb_trans : Transitive (fun a b : string => is_true (a <=? b)%string).
Proof.
  intros a b c H1 H2. unfold is_true in *.
  apply leb_ltb in H1, H2. apply leb_ltb.
  destruct H1 as [H1 | ->], H2 as [H2 | ->]; auto.
  left. eapply ltb_trans; eassumption.
Qed.

(** A sorted list without repetition is strictly increasing. *)
Lemma sorted_nodup_strict (l : list string) :
  Sorted (fun a b => is_true (a <=? b)%string) l -> NoDup l ->
  StronglySorted (fun a b => (a <? b)%string = true) l.
Proof.
  intros Hs Hn. apply (Sorted_StronglySorted leb_trans) in Hs.
  induction Hs as [|a l Hs IH Hall]; [constructor|].
  apply NoDup_cons in Hn as [Hnotin Hn].
  constructor; [now apply IH|].
  rewrite Forall_forall in Hall |- *. intros b Hb.
  destruct (proj1 (leb_ltb a b) (Hall b Hb)) as [H | ->]; [exact H|].
  contradiction.
Qed.

End Order.

Section Labels.

Lemma Set_add_elem x y s : x ∈ Set_add y s <-> x ∈ s \/ x = y.
Proof.
  unfold Set_add. destruct (decide (y ∈ s)).
  - split; [auto|]. intros [H | ->]; assumption.
  - rewrite elem_of_app, list_elem_of_singleton. reflexivity.
Qed.

Lemma Set_add_NoDup y s : NoDup s -> NoDup (Set_add y s).
Proof.
  intros H. unfold Set_add. destruct (decide (y ∈ s)); [exact H|].
  apply NoDup_app. split; [exact H|]. split.
  - intros x Hx ->%list_elem_of_singleton. contradiction.
  - apply NoDup_singleton.
Qed.

Lemma labels_of_player_elem x es : forall acc,
  x ∈ fold_left (fun acc e => Set_add (match_ e) acc) es acc <->
  x ∈ acc \/ exists e, e ∈ es /\ match_ e = x.
Proof.
  induction es as [|e es IH]; intros acc; simpl.
  - split; [auto|]. intros [H | (e & He & _)]; [exact H|]. inversion He.
  - rewrite IH, Set_add_elem. split.
    + intros [[H | ->] | (e' & He' & E)]; eauto.
      * right. exists e. split; [left|reflexivity].
      * right. exists e'. split; [now right|exact E].
    + intros [H | (e' & He' & E)]; [auto|].
      apply elem_of_cons in He' as [-> | He']; [left; right; now symmetry|].
      right. eauto.
Qed.

Lemma labels_of_player_NoDup es : forall acc,
  NoDup acc -> NoDup (fold_left (fun acc e => Set_add (match_ e) acc) es acc).
Proof.
  induction es as [|e es IH]; intros acc H; simpl; [exact H|].
  apply IH. now apply Set_add_NoDup.
Qed.

Lemma allMatches_elem x ps :
  x ∈ allMatches ps <->
  exists p e, p ∈ ps /\ e ∈ earnings p /\ match_ e = x.
Proof.
  unfold allMatches.
  assert (forall acc,
    x ∈ fold_left (fun acc player =>
           fold_left (fun acc e => Set_add (match_ e) acc) (earnings player) acc)
         ps acc <->
    x ∈ acc \/ exists p e, p ∈ ps /\ e ∈ earnings p /\ match_ e = x) as H.
  { induction ps as [|p ps IH]; intros acc; simpl.
    - split; [auto|]. intros [H | (p & e & Hp & _)]; [exact H|]. inversion Hp.
    - rewrite IH, labels_of_player_elem. split.
      + intros [[H | (e & He & E)] | (q & e & Hq & He & E)]; eauto.
        * right. exists p, e. split; [left|auto].
        * right. exists q, e. split; [now right|auto].
      + intros [H | (q & e & Hq & He & E)]; [auto|].
        apply elem_of_cons in Hq as [-> | Hq]; [left; right; eauto|].
        right. eauto. }
  rewrite H. split; [|auto]. intros [Hnil | H']; [inversion Hnil | exact H'].
Qed.

Lemma allMatches_NoDup ps : NoDup (allMatches ps).
Proof.
  unfold allMatches.
  assert (forall acc, NoDup acc ->
    NoDup (fold_left (fun acc player =>
           fold_left (fun acc e => Set_add (match_ e) acc) (earnings player) acc)
         ps acc)) as H.
  { induction ps as [|p ps IH]; intros acc Hacc; simpl; [exact Hacc|].
    apply IH. now apply labels_of_player_NoDup. }
  apply H. constructor.
Qed.

Lemma sortedMatches_elem x ps : x ∈ sortedMatches ps <-> x ∈ allMatches ps.
Proof.
  unfold sortedMatches.
  now rewrite <- (StringSort.Permuted_sort (allMatches ps)).
Qed.

Lemma sortedMatches_strict ps :
  StronglySorted (fun a b => (a <? b)%string = true) (sortedMatches ps).
Proof.
  apply sorted_nodup_strict.
  - apply StringSort.Sorted_sort.
  - unfold sortedMatches.
    rewrite <- (StringSort.Permuted_sort (allMatches ps)).
    apply allMatches_NoDup.
Qed.

End Labels.

Section Rows.

Lemma dataPoint_snoc ps p m :
  dataPoint (ps ++ [p]) m = assign (name p) (pointValue m p) (dataPoint ps m).
Proof. unfold dataPoint. now rewrite fold_left_app. Qed.

(** An assignment under one key leaves the properties under the other keys,
    "__proto__" apart, as they were. *)
Lemma assign_lookup k' v o k :
  k <> "__proto__" ->
  props (assign k' v o) !! k =
  if decide (k' = k) then Some v else props o !! k.
Proof.
  intros Hk. unfold assign.
  destruct (String.eqb k' "__proto__" && negb (nullProto o)) eqn:E.
  - apply andb_true_iff in E as [E _]. apply String.eqb_eq in E.
    destruct (decide (k' = k)) as [<- | _]; [contradiction|].
    now destruct v.
  - simpl. apply lookup_insert.
Qed.

(** The value a row holds under a key other than "__proto__": the one
    written for the last player of that name; under "match" the label, when
    no player has that name. *)
Lemma dataPoint_lookup ps m k :
  k <> "__proto__" ->
  props (dataPoint ps m) !! k =
  match last (filter (fun q => name q = k) ps) with
  | Some q => Some (pointValue m q)
  | None => if decide (k = "match") then Some (VString m) else None
  end.
Proof.
  intros Hk. induction ps as [|p ps IH] using rev_ind.
  - unfold dataPoint. simpl. rewrite lookup_singleton.
    destruct (decide ("match" = k)), (decide (k = "match")); congruence.
  - rewrite dataPoint_snoc, filter_app, assign_lookup by exact Hk.
    destruct (decide (name p = k)) as [E | E].
    + rewrite (filter_cons_True _ p []) by exact E.
      rewrite filter_nil. now rewrite last_snoc.
    + rewrite (filter_cons_False _ p []) by exact E.
      rewrite filter_nil, app_nil_r. exact IH.
Qed.





End Rows.




(** ** Dashboard statistics (C6) *)

Section Rounding.

Local Open Scope Q_scope.

Lemma pow2_pos e : 0 < pow2 e.
Proof. apply Qpower_0_lt. reflexivity. Qed.

Lemma pow2_add a b : pow2 (a + b) == pow2 a * pow2 b.
Proof. apply Qpower_plus. discriminate. Qed.

Lemma pow2_le a b : (a <= b)%Z -> pow2 a <= pow2 b.
Proof. intros H. apply Qpower_le_compat_l; [exact H | discriminate]. Qed.

Lemma pow2_lt_inv a b : pow2 a < pow2 b -> (a < b)%Z.
Proof. intros H. apply (Qpower_lt_compat_l_inv 2); [exact H | reflexivity]. Qed.

Lemma pow2_half e : pow2 (e - 1) == (1 # 2) * pow2 e.
Proof.
  unfold Z.sub. rewrite pow2_add, Qmult_comm. reflexivity.
Qed.

Lemma pow2_Z a : (0 <= a)%Z -> pow2 a == inject_Z (2 ^ a).
Proof. intros H. unfold pow2. now rewrite Zpower_Qpower. Qed.

(** A positive rational exceeds the power of two one below the difference
    of the binary logarithms of its numerator and denominator. *)
Lemma log2_difference_lower x :
  0 < x ->
  pow2 (Z.log2 (Qnum x) - Z.log2 (Zpos (Qden x)) - 1) < x.
Proof.
  destruct x as [n d]. intros Hx. simpl Qnum. simpl Qden.
  assert (0 < n)%Z as Hn by (unfold Qlt in Hx; simpl in Hx; lia).
  destruct (Z.log2_spec n Hn) as [Ha _].
  destruct (Z.log2_spec (Zpos d) (Pos2Z.is_pos d)) as [_ Hb].
  set (a := Z.log2 n) in *. set (b := Z.log2 (Zpos d)) in *.
  assert (0 <= a)%Z as Ha0 by apply Z.log2_nonneg.
  assert (0 <= b)%Z as Hb0 by apply Z.log2_nonneg.
  assert (pow2 (a - b - 1) * pow2 (b + 1) == pow2 a) as E.
  { rewrite <- pow2_add. now replace (a - b - 1 + (b + 1))%Z with a by lia. }
  rewrite (pow2_Z a Ha0), (pow2_Z (b + 1)) in E by lia.
  assert (0 < pow2 (a - b - 1)) as Hp by apply pow2_pos.
  (* p * 2^(b+1) = 2^a <= n and d < 2^(b+1) *)
  assert (inject_Z (2 ^ a) <= inject_Z n) as Hna by (rewrite <- Zle_Qle; exact Ha).
  assert (inject_Z (Zpos d) < inject_Z (2 ^ Z.succ b)) as Hdb
    by (rewrite <- Zlt_Qlt; exact Hb).
  replace (Z.succ b) with (b + 1)%Z in Hdb by lia.
  assert (n # d == inject_Z n / inject_Z (Zpos d)) as En by apply Qmake_Qdiv.
  rewrite En. apply Qlt_shift_div_l; [reflexivity|].
  apply Qlt_le_trans with (pow2 (a - b - 1) * inject_Z (2 ^ (b + 1))).
  - apply Qmult_lt_l; assumption.
  - rewrite E. exact Hna.
Qed.

Lemma ilog2_upper x M : 0 < x -> x < pow2 M -> (ilog2 x <= M - 1)%Z.
Proof.
  intros Hx HM. unfold ilog2.
  set (k := (Z.log2 (Qnum x) - Z.log2 (Zpos (Qden x)))%Z).
  pose proof (log2_difference_lower x Hx) as Hlow. fold k in Hlow.
  assert (k - 1 < M)%Z as Hk.
  { apply pow2_lt_inv. eapply Qlt_trans; eassumption. }
  destruct (x ?= pow2 k) eqn:C.
  - apply Qeq_alt in C. assert (k < M)%Z; [|lia].
    apply pow2_lt_inv. now rewrite <- C.
  - lia.
  - apply Qgt_alt in C. assert (k < M)%Z; [|lia].
    apply pow2_lt_inv. eapply Qlt_trans; eassumption.
Qed.

Lemma round_even_error m :
  Qabs (inject_Z (round_even m) - m) <= 1 # 2.
Proof.
  unfold round_even.
  pose proof (Qfloor_le m) as Hl. pose proof (Qlt_floor m) as Hu.
  rewrite inject_Z_plus in Hu. change (inject_Z 1) with 1 in Hu.
  set (f := Qfloor m) in *.
  apply Qabs_Qle_condition.
  destruct (m - inject_Z f ?= 1 # 2) eqn:C.
  - apply Qeq_alt in C.
    destruct (Z.even f); rewrite ?inject_Z_plus;
      change (inject_Z 1) with 1; split; lra.
  - apply Qlt_alt in C. split; lra.
  - apply Qgt_alt in C. rewrite inject_Z_plus.
    change (inject_Z 1) with 1. split; lra.
Qed.

Lemma round_even_nonneg m : 0 <= m -> (0 <= round_even m)%Z.
Proof.
  intros H. unfold round_even.
  assert (0 <= Qfloor m)%Z as Hf.
  { change 0%Z with (Qfloor 0). now apply Qfloor_resp_le. }
  destruct (m - inject_Z (Qfloor m) ?= 1 # 2); [destruct (Z.even _)| |]; lia.
Qed.

Lemma Qabs_pos_eq x : 0 < x -> Qabs x = x.
Proof.
  destruct x as [n d]. unfold Qlt. simpl. intros H.
  f_equal. apply Z.abs_eq. lia.
Qed.

(** Rounding a positive rational below [2^M]: the result is finite, not
    negative, and off by at most [2^(M-54)]. *)
Lemma binary64_error x M :
  0 < x -> x < pow2 M -> (-1021 <= M <= 1023)%Z ->
  exists r,
    binary64 x = Fin (Q2Qc r) /\ 0 <= r /\ Qabs (r - x) <= pow2 (M - 54).
Proof.
  intros Hx HM HMr. unfold binary64.
  assert ((x ?= 0) = Gt) as -> by (apply Qgt_alt; exact Hx).
  rewrite (Qabs_pos_eq x Hx).
  pose proof (ilog2_upper x M Hx HM) as Hlog.
  set (e := Z.max (ilog2 x - 52) (-1074)).
  assert (e <= M - 53)%Z as He by lia.
  pose proof (pow2_pos e) as Hpe.
  set (y := x / pow2 e).
  assert (0 <= y) as Hy.
  { unfold y. apply Qle_shift_div_l; [exact Hpe|]. lra. }
  pose proof (round_even_error y) as Herr.
  pose proof (round_even_nonneg y Hy) as Hnn.
  set (m := round_even y) in *.
  assert (0 <= inject_Z m) as Hm by (change 0 with (inject_Z 0); now rewrite <- Zle_Qle).
  assert (y * pow2 e == x) as Eyx.
  { unfold y. field. intros E. rewrite E in Hpe. discriminate Hpe. }
  assert (Qabs (inject_Z m * pow2 e - x) <= pow2 (M - 54)) as Hbound.
  { apply Qle_trans with (pow2 (e - 1)); [|apply pow2_le; lia].
    rewrite pow2_half. rewrite <- Eyx at 1.
    setoid_replace (inject_Z m * pow2 e - y * pow2 e)
      with ((inject_Z m - y) * pow2 e) using relation Qeq by ring.
    rewrite Qabs_Qmult, (Qabs_pos (pow2 e)) by lra.
    apply Qmult_le_compat_r; [exact Herr | lra]. }
  assert (0 <= inject_Z m * pow2 e) as Hr0 by (apply Qmult_le_0_compat; lra).
  assert (Qle_bool (pow2 1024) (Qabs (inject_Z m * pow2 e)) = false) as ->.
  { destruct (Qle_bool _ _) eqn:B; [|reflexivity].
    apply Qle_bool_iff in B. rewrite Qabs_pos in B by exact Hr0.
    apply Qabs_Qle_condition in Hbound.
    assert (pow2 (M - 54) <= pow2 M) as H1 by (apply pow2_le; lia).
    assert (pow2 (M + 1) <= pow2 1024) as H2 by (apply pow2_le; lia).
    assert (pow2 (M + 1) == 2 * pow2 M) as H3.
    { rewrite pow2_add. unfold pow2 at 2. simpl. ring. }
    lra. }
  exists (inject_Z m * pow2 e). auto.
Qed.

Lemma binary64_zero x : x == 0 -> binary64 x = Fin (Q2Qc 0).
Proof. intros H. unfold binary64. apply Qeq_alt in H. now rewrite H. Qed.

Lemma Qc_eqb_of_pos (z : Z) :
  (0 < z)%Z -> Num.Qc_eqb (Q2Qc (inject_Z z)) 0%Qc = false.
Proof.
  intros H. unfold Num.Qc_eqb.
  destruct (Qccompare (Q2Qc (inject_Z z)) 0%Qc) eqn:E; try reflexivity.
  apply Qceq_alt in E. apply (f_equal this) in E.
  change (Qred (inject_Z z) = Qred 0%Q) in E.
  assert (Qred (inject_Z z) == Qred 0)%Q as E' by (now rewrite E).
  rewrite !Qred_correct in E'. unfold Qeq, inject_Z in E'. simpl in E'. lia.
Qed.

Lemma div_of_Z (p t : Z) :
  (0 < t)%Z ->
  (Num.of_Z p / Num.of_Z t)%num = binary64 (Qred (inject_Z p) / Qred (inject_Z t))%Q.
Proof.
  intros Ht. cbv beta iota delta [Num.div Num.of_Z].
  now rewrite (Qc_eqb_of_pos t Ht).
Qed.

Lemma mul_Fin (q r : Q) :
  (Fin (Q2Qc q) * Fin (Q2Qc r))%num = binary64 (Qred q * Qred r)%Q.
Proof. reflexivity. Qed.

Lemma Math_round_Fin (x : Q) :
  Math_round (Fin (Q2Qc x)) = Num.of_Z (Qfloor (Qred x + (1 # 2))%Q).
Proof. reflexivity. Qed.

(** [Math.round((p / t) * 100)] for integers [0 <= p <= t], [0 < t < 2^32]:
    an integer within one half of [100 * p / t]. *)
Lemma round_percent (p t : Z) :
  (0 <= p <= t)%Z -> (0 < t < 2 ^ 32)%Z ->
  exists r,
    Math_round (Num.of_Z p / Num.of_Z t * Num.of_Z 100)%num = Num.of_Z r
    /\ (2 * t * r - t <= 200 * p <= 2 * t * r + t)%Z.
Proof.
  intros Hp Ht. rewrite div_of_Z by lia.
  set (P := inject_Z p). set (T := inject_Z t).
  assert (0 < T) as HT
    by (unfold T; change 0 with (inject_Z 0); rewrite <- Zlt_Qlt; lia).
  assert (T < 4294967296) as HT32
    by (unfold T; change 4294967296 with (inject_Z (2 ^ 32));
        rewrite <- Zlt_Qlt; lia).
  assert (0 <= P) as HP0
    by (unfold P; change 0 with (inject_Z 0); rewrite <- Zle_Qle; lia).
  assert (P <= T) as HPT by (unfold P, T; rewrite <- Zle_Qle; lia).
  assert (Qred P / Qred T == P / T) as Ediv by (now rewrite !Qred_correct).
  destruct (Z.eq_dec p 0) as [-> | Hp0].
  - rewrite binary64_zero by (rewrite Ediv; unfold P; simpl; field; lra).
    unfold Num.of_Z at 1. rewrite mul_Fin, binary64_zero by reflexivity.
    exists 0%Z. split; [reflexivity | lia].
  - assert (1 <= P) as HP1
      by (unfold P; change 1 with (inject_Z 1); rewrite <- Zle_Qle; lia).
    assert (P == (P / T) * T) as EP by (field; lra).
    set (rho := P / T) in *.
    assert (0 < rho) as Hq0 by (apply Qlt_shift_div_l; lra).
    assert (rho <= 1) as Hq1 by (apply Qle_shift_div_r; lra).
    destruct (binary64_error (Qred P / Qred T) 1) as (q & Eq & Hq & Hqe);
      [rewrite Ediv; exact Hq0 | rewrite Ediv; unfold pow2; simpl; lra | lia |].
    rewrite Eq. unfold Num.of_Z at 1. rewrite mul_Fin.
    rewrite Ediv in Hqe.
    assert (pow2 (1 - 54) == 1 # 9007199254740992) as E53 by reflexivity.
    rewrite E53 in Hqe. apply Qabs_Qle_condition in Hqe.
    assert (Qred q * Qred (inject_Z 100) == 100 * q) as Emul
      by (rewrite !Qred_correct; unfold inject_Z; ring).
    (* the quotient is positive: rho >= 1/T > 2^-32 *)
    assert (rho * T >= 1) as Hrt by (rewrite <- EP; exact HP1).
    assert ((1 # 4294967296) < rho) as Hrho by nra.
    destruct (binary64_error (Qred q * Qred (inject_Z 100)) 7)
      as (x & Ex & Hx & Hxe);
      [rewrite Emul; lra | rewrite Emul; unfold pow2; simpl; lra | lia |].
    rewrite Ex, Math_round_Fin. rewrite Emul in Hxe.
    assert (pow2 (7 - 54) == 1 # 140737488355328) as E47 by reflexivity.
    rewrite E47 in Hxe. apply Qabs_Qle_condition in Hxe.
    set (r := Qfloor (Qred x + (1 # 2))).
    pose proof (Qfloor_le (Qred x + (1 # 2))) as Hl.
    pose proof (Qlt_floor (Qred x + (1 # 2))) as Hu.
    fold r in Hl, Hu. rewrite inject_Z_plus in Hu.
    change (inject_Z 1) with 1 in Hu. rewrite Qred_correct in Hl, Hu.
    exists r. split; [reflexivity|].
    set (R := inject_Z r) in *.
    assert (2 * T * R - T - 1 < 200 * P /\ 200 * P < 2 * T * R + T + 1) as [H1 H2].
    { rewrite EP. split; nra. }
    split.
    + assert (2 * t * r - t - 1 < 200 * p)%Z; [|lia].
      rewrite Zlt_Qlt. unfold Z.sub.
      repeat first [rewrite inject_Z_plus | rewrite inject_Z_mult
                   | rewrite inject_Z_opp].
      fold P T R.
      change (inject_Z 2) with 2. change (inject_Z 200) with 200.
      change (inject_Z 1) with 1. lra.
    + assert (200 * p < 2 * t * r + t + 1)%Z; [|lia].
      rewrite Zlt_Qlt.
      repeat first [rewrite inject_Z_plus | rewrite inject_Z_mult].
      fold P T R.
      change (inject_Z 2) with 2. change (inject_Z 200) with 200.
      change (inject_Z 1) with 1. lra.
Qed.

Local Close Scope Q_scope.

(** The rounding of [number] against the binary64 arithmetic of the
    processor: for all counts [p <= t] with [1 <= t <= 100], [(p / t) * 100]
    has the same value on both. *)
Lemma binary64_agrees_with_primitive_floats :
  forall p t, p <= t -> 1 <= t <= 100 -> sameQuotientPercent p t = true.
Proof.
  assert (forallb
            (fun t => forallb (fun p => sameQuotientPercent p t) (seq 0 (S t)))
            (seq 1 100) = true) as H by (vm_compute; reflexivity).
  intros p t Hp Ht. rewrite forallb_forall in H.
  specialize (H t). rewrite forallb_forall in H.
  apply H; apply in_seq; lia.
Qed.

Lemma profitable_le_total ps : profitablePlayers ps <= totalPlayers ps.
Proof. unfold profitablePlayers, totalPlayers. apply length_filter. Qed.

Lemma gtb_zero (x : number) :
  (x >? Num.zero)%num = true <->
  x = Infinity false \/ exists q, x = Fin q /\ (0 < q)%Qc.
Proof.
  destruct x as [|[]|q].
  - split; [discriminate | intros [H | (q & H & _)]; discriminate].
  - split; [discriminate | intros [H | (q & H & _)]; discriminate].
  - split; auto.
  - unfold Num.gtb, Num.zero, Num.of_Z, Num.Qc_ltb.
    change (Q2Qc (inject_Z 0)) with 0%Qc.
    split.
    + destruct (0 ?= q)%Qc eqn:E; try discriminate.
      intros _. right. exists q. split; [reflexivity | now apply Qclt_alt].
    + intros [H | (q' & [= <-] & Hq)]; [discriminate|].
      pose proof (proj1 (Qclt_alt _ _) Hq) as Hlt.
      destruct (0 ?= q)%Qc eqn:E; [| reflexivity |]; congruence.
Qed.

End Rounding.

(** C6, as the specification states it, fails.  With 40 players of whom 23
    are profitable, 100 * 23 / 40 is 57.5 exactly, which [Math.round], like
    every usual rounding of a half, takes to 58; the component divides
    first, 23 / 40 is rounded down to binary64, the product with 100 falls
    just below 57.5, and the win rate shown is 57. *)
Lemma win_rate_of_23_in_40 :
  let ps :=
    replicate 23 (mkPlayer "w" [] (Num.of_Z 1))
    ++ replicate 17 (mkPlayer "l" [] Num.zero) in
  totalPlayers ps = 40
  /\ profitablePlayers ps = 23
  /\ winRate ps = Num.of_Z 57
  /\ specWinRate 23 40 = Num.of_Z 58
  /\ (2 * (100 * 23) = (2 * 57 + 1) * 40)%Z.
Proof.
  repeat split; vm_compute; reflexivity.
Qed.

(** C6, amended.  [totalPlayers] is the number of players; [totalWinnings]
    is the sum of the players' totals, accumulated from zero in roster
    order; [profitablePlayers] counts the players whose total is strictly
    greater than zero; [winRate] is zero for an empty roster and otherwise,
    for a roster within the length limit of an array, an integer [r] within
    one half of 100 * profitablePlayers / totalPlayers, so the nearest
    integer, except that an exact half may go either way.  With three
    players, one of them profitable, it is 33. *)
Theorem dashboard_stats :
  (forall ps, totalPlayers ps = length ps)
  /\ totalWinnings [] = Num.zero
  /\ (forall ps p,
        totalWinnings (ps ++ [p]) = (totalWinnings ps + totalEarnings p)%num)
  /\ profitablePlayers [] = 0
  /\ (forall ps p,
        profitablePlayers (ps ++ [p]) =
        profitablePlayers ps
        + (if (totalEarnings p >? Num.zero)%num then 1 else 0))
  /\ (forall x,
        (x >? Num.zero)%num = true <->
        x = Infinity false \/ exists q, x = Fin q /\ (0 < q)%Qc)
  /\ (forall ps, totalPlayers ps = 0 -> winRate ps = Num.zero)
  /\ (forall ps,
        0 < totalPlayers ps ->
        (Z.of_nat (totalPlayers ps) < 2 ^ 32)%Z ->
        let p := Z.of_nat (profitablePlayers ps) in
        let t := Z.of_nat (totalPlayers ps) in
        exists r,
          winRate ps = Num.of_Z r
          /\ (2 * t * r - t <= 200 * p <= 2 * t * r + t)%Z)
  /\ (forall ps,
        totalPlayers ps = 3 -> profitablePlayers ps = 1 ->
        winRate ps = Num.of_Z 33).
Proof.
  repeat match goal with |- _ /\ _ => split end.
  - reflexivity.
  - reflexivity.
  - intros ps p. unfold totalWinnings. now rewrite fold_left_app.
  - reflexivity.
  - intros ps p. unfold profitablePlayers.
    rewrite filter_app, length_app. f_equal.
    destruct (totalEarnings p >? Num.zero)%num eqn:E.
    + now rewrite filter_cons_True by exact E.
    + rewrite filter_cons_False; [reflexivity|]. now rewrite E.
  - exact gtb_zero.
  - intros ps H. unfold winRate. now rewrite H.
  - intros ps H Hlen p t. unfold winRate.
    destruct (0 <? totalPlayers ps) eqn:E; [|apply Nat.ltb_ge in E; lia].
    pose proof (profitable_le_total ps) as Hle.
    apply round_percent; subst p t; lia.
  - intros ps Ht Hp. unfold winRate. rewrite Ht, Hp.
    vm_compute. reflexivity.
Qed.

Lemma dashboard_stats_witness :
  let ps :=
    [mkPlayer "Alice" [] (Num.of_Z 30); mkPlayer "Bob" [] (Num.of_Z (-5));
     mkPlayer "Carol" [] Num.zero] in
  (exists r,
     winRate ps = Num.of_Z r
     /\ (2 * 3 * r - 3 <= 200 * 1 <= 2 * 3 * r + 3)%Z)
  /\ winRate ps = Num.of_Z 33.
Proof.
  intros ps.
  destruct dashboard_stats as (_ & _ & _ & _ & _ & _ & _ & Hnear & H33).
  split.
  - apply (Hnear ps); [simpl; lia | vm_compute; reflexivity].
  - apply (H33 ps); reflexivity.
Defined.

(** * Further properties of the component *)

(** ** Invariants of the reachable states *)

Section ReachableRecords.

(** A property of player records that holds of every new player and is kept
    when an earning is added. *)
Variable P : Player -> Prop.
Hypothesis P_new :
  forall v, Str.trim v <> "" -> P (mkPlayer (Str.trim v) [] Num.zero).
Hypothesis P_earning :
  forall today a p, P p -> P (withEarning today a p).

Lemma P_updatePlayer today sel a p : P p -> P (updatePlayer today sel a p).
Proof.
  intros H. destruct (decide (name p = sel)) as [E | E].
  - rewrite updatePlayer_same by exact E. now apply P_earning.
  - now rewrite updatePlayer_other by exact E.
Qed.

Lemma step_records s e :
  (Forall P (players s) /\ forall p, selectedPlayer s = Some p -> P p) ->
  Forall P (players (step s e))
  /\ forall p, selectedPlayer (step s e) = Some p -> P p.
Proof.
  intros [Hps Hsel]. destruct e as [v | v | | today | i | ]; simpl.
  - split; assumption.
  - split; assumption.
  - destruct (handleAddPlayer_cases s)
      as [[_ E] | [(_ & _ & E) | (Hne & _ & E)]]; rewrite E; simpl;
      try (split; assumption).
    split; simpl; [|assumption].
    apply Forall_app. split; [assumption|].
    constructor; [now apply P_new | constructor].
  - destruct (handleAddEarning_cases today s)
      as [[_ E] | [(sel & _ & _ & _ & E) | (sel & _ & _ & _ & E)]];
      rewrite E; simpl; try (split; assumption).
    assert (Forall P
              (map (updatePlayer today (name sel) (parseFloat (newEarning s)))
                 (players s))) as Hnew.
    { apply Forall_fmap. eapply Forall_impl; [exact Hps|].
      intros p Hp. now apply P_updatePlayer. }
    split; simpl; [exact Hnew|].
    intros p Hp. unfold findByName in Hp. apply find_some in Hp as [Hin _].
    rewrite Forall_forall in Hnew. apply Hnew. now apply list_elem_of_In.
  - unfold selectPlayer. destruct (players s !! i) as [p|] eqn:Hi; simpl.
    + split; simpl; [assumption|]. intros q [= <-].
      rewrite Forall_forall in Hps. apply Hps.
      eapply list_elem_of_lookup_2. exact Hi.
    + split; assumption.
  - split; simpl; [assumption | discriminate].
Qed.

Lemma reachable_records s :
  reachable s ->
  Forall P (players s) /\ forall p, selectedPlayer s = Some p -> P p.
Proof.
  induction 1 as [| s e _ IH].
  - split; simpl; [constructor | discriminate].
  - now apply step_records.
Qed.

End ReachableRecords.

Section Selection.

Lemma step_selection_ok s e : selection_ok s -> selection_ok (step s e).
Proof.
  intros [Hin Hmode]. destruct e as [v | v | | today | i | ]; simpl.
  - split; assumption.
  - split; assumption.
  - destruct (handleAddPlayer_cases s)
      as [[_ E] | [(_ & _ & E) | (_ & _ & E)]]; rewrite E; simpl;
      try (split; assumption).
    split; simpl; [|assumption].
    intros p Hp. apply elem_of_app. left. now apply Hin.
  - destruct (handleAddEarning_cases today s)
      as [[_ E] | [(sel & _ & _ & _ & E) | (sel & _ & Hsel & _ & E)]];
      rewrite E; simpl; try (split; assumption).
    split; simpl.
    + intros p Hp. unfold findByName in Hp. apply find_some in Hp as [Hp _].
      now apply list_elem_of_In.
    + intros Hshow. rewrite (Hmode Hshow) in Hsel. discriminate.
  - unfold selectPlayer. destruct (players s !! i) as [p|] eqn:Hi; simpl.
    + split; simpl; [|discriminate]. intros q [= <-].
      eapply list_elem_of_lookup_2. exact Hi.
    + split; assumption.
  - split; simpl; [discriminate | reflexivity].
Qed.

Lemma reachable_selection_ok s : reachable s -> selection_ok s.
Proof.
  induction 1 as [| s e _ IH].
  - split; simpl; discriminate.
  - now apply step_selection_ok.
Qed.

End Selection.

(** ** Strings: [trim], decimal numerals and [parseFloat] *)

Section Trim.

Lemma trimStart_startsClean s : startsClean (Str.trimStart s).
Proof.
  induction s as [|c s IH]; simpl; [exact I|].
  destruct (Str.isWhiteSpace c) eqn:E; [exact IH | exact E].
Qed.

Lemma trimStart_clean s : startsClean s -> Str.trimStart s = s.
Proof. destruct s as [|c s]; simpl; [reflexivity|]. now intros ->. Qed.

Lemma trimEnd_idem s : Str.trimEnd (Str.trimEnd s) = Str.trimEnd s.
Proof.
  induction s as [|c s IH]; simpl; [reflexivity|].
  destruct (Str.trimEnd s) as [|d r] eqn:E.
  - destruct (Str.isWhiteSpace c) eqn:Ec; simpl; [reflexivity|].
    now rewrite Ec.
  - simpl in IH |- *. now rewrite IH.
Qed.

Lemma trimEnd_startsClean s : startsClean s -> startsClean (Str.trimEnd s).
Proof.
  destruct s as [|c s]; simpl; [auto|]. intros Hc.
  destruct (Str.trimEnd s); [rewrite Hc|]; exact Hc.
Qed.

Lemma trimEnd_clean_nonempty s :
  startsClean s -> s <> "" -> Str.trimEnd s <> "".
Proof.
  destruct s as [|c s]; simpl; [congruence|]. intros Hc _.
  destruct (Str.trimEnd s); [rewrite Hc|]; discriminate.
Qed.

Lemma trim_idem s : Str.trim (Str.trim s) = Str.trim s.
Proof.
  unfold Str.trim.
  rewrite (trimStart_clean (Str.trimEnd (Str.trimStart s))).
  - apply trimEnd_idem.
  - apply trimEnd_startsClean, trimStart_startsClean.
Qed.

Lemma trimStart_empty s :
  Str.trimStart s = "" <->
  Forall (fun c => Str.isWhiteSpace c = true) (codeUnits s).
Proof.
  induction s as [|c s IH]; simpl.
  - split; [constructor | reflexivity].
  - destruct (Str.isWhiteSpace c) eqn:E.
    + rewrite IH. split; [now constructor | now inversion 1].
    + split; [discriminate | inversion 1; congruence].
Qed.

Lemma trim_empty s :
  Str.trim s = "" <->
  Forall (fun c => Str.isWhiteSpace c = true) (codeUnits s).
Proof.
  rewrite <- trimStart_empty. unfold Str.trim. split.
  - intros H. destruct (decide (Str.trimStart s = "")) as [E | E]; [exact E|].
    destruct (trimEnd_clean_nonempty _ (trimStart_startsClean s) E H).
  - now intros ->.
Qed.

End Trim.

Section Numerals.

Lemma digit_cases c :
  isDigit c = true ->
  Str.isWhiteSpace c = false
  /\ (forall t, Parse.strip_prefix "Infinity" (String c t) = None)
  /\ (forall t, strDecimalLiteral (String c t)
                = strUnsignedDecimalLiteral (String c t)).
Proof.
  destruct c as [[] [] [] [] [] [] [] []]; try discriminate;
    intros _; repeat split.
Qed.

Lemma span_digits_all s :
  allDigits s -> span_digits s = (s, EmptyString).
Proof.
  induction s as [|c s IH]; intros H; simpl; [reflexivity|].
  inversion H as [|? ? Hc Hs]; subst. rewrite Hc, (IH Hs). reflexivity.
Qed.

Lemma append_empty s : s +:+ "" = s.
Proof.
  induction s as [|c s IH]; [reflexivity|].
  change (String c (s +:+ "") = String c s). now rewrite IH.
Qed.

Lemma Q2Qc_pow10_0 (m : Z) :
  Q2Qc (inject_Z m * pow10 (0 - Z.of_nat (String.length ""))) = Q2Qc (inject_Z m).
Proof.
  apply Q2Qc_eq_iff. simpl. unfold pow10. simpl.
  unfold Qeq, Qmult, inject_Z. simpl. lia.
Qed.

(** The literal read from a non-empty run of digits that ends the string. *)
Lemma strUnsignedDecimalLiteral_digits s :
  allDigits s -> s <> "" ->
  strUnsignedDecimalLiteral s = Some (Num.of_Z (digits_value s), EmptyString).
Proof.
  intros Hd Hne. destruct s as [|c t]; [congruence|].
  assert (isDigit c = true) as Hc by (now inversion Hd).
  destruct (digit_cases c Hc) as (_ & Hinf & _).
  unfold strUnsignedDecimalLiteral.
  rewrite Hinf, (span_digits_all _ Hd). cbv beta iota.
  change (exponentPart "") with (0%Z, ""). cbv beta iota.
  rewrite append_empty. unfold Num.of_Z.
  now rewrite Q2Qc_pow10_0.
Qed.

Lemma parseFloat_digits s :
  allDigits s -> s <> "" ->
  parseFloat s = Num.of_Z (digits_value s)
  /\ parseFloat (String "-" s) = Num.neg (Num.of_Z (digits_value s)).
Proof.
  intros Hd Hne. pose proof (strUnsignedDecimalLiteral_digits s Hd Hne) as E.
  destruct s as [|c t]; [congruence|].
  assert (isDigit c = true) as Hc by (now inversion Hd).
  destruct (digit_cases c Hc) as (Hws & _ & Hlit).
  split.
  - unfold parseFloat. simpl Str.trimStart. rewrite Hws, Hlit, E. reflexivity.
  - unfold parseFloat.
    change (Str.trimStart (String "-" (String c t)))
      with (String "-" (String c t)).
    change (strDecimalLiteral (String "-" (String c t)))
      with (match strUnsignedDecimalLiteral (String c t) with
            | Some (v, rest) => Some (Num.neg v, rest)
            | None => None
            end).
    now rewrite E.
Qed.

Lemma to_uint_nonnil n : Nat.to_uint n <> Decimal.Nil.
Proof.
  rewrite <- (DecimalNat.Unsigned.of_to n) at 1.
  rewrite DecimalNat.Unsigned.to_of. apply DecimalFacts.unorm_nonnil.
Qed.

Lemma of_nat_NilEmpty n :
  Str.of_nat n = NilEmpty.string_of_uint (Nat.to_uint n).
Proof.
  unfold Str.of_nat, NilZero.string_of_uint.
  pose proof (to_uint_nonnil n). now destruct (Nat.to_uint n).
Qed.

Lemma of_nat_inj a b : Str.of_nat a = Str.of_nat b -> a = b.
Proof.
  intros H. apply DecimalNat.Unsigned.to_uint_inj.
  apply (f_equal NilZero.uint_of_string) in H. unfold Str.of_nat in H.
  rewrite !NilZero.usu in H by apply to_uint_nonnil. now injection H.
Qed.

Lemma string_of_uint_digits d :
  allDigits (NilEmpty.string_of_uint d)
  /\ forall acc,
       digits_value_from (Z.of_nat acc) (NilEmpty.string_of_uint d)
       = Z.of_nat (Nat.of_uint_acc d acc).
Proof.
  induction d as [|d IH|d IH|d IH|d IH|d IH|d IH|d IH|d IH|d IH|d IH];
    [split; [apply Forall_nil_2 | reflexivity] | ..];
    destruct IH as [IHa IHv];
    (split;
     [ apply Forall_cons_2; [reflexivity | exact IHa]
     | intros acc; simpl NilEmpty.string_of_uint; simpl Nat.of_uint_acc;
       rewrite Nat.tail_mul_spec, <- IHv;
       cbn [digits_value_from]; f_equal;
       change (Nat.of_num_uint _) with 10;
       match goal with
       | |- context [Str.code ?c - 48] =>
           let v := eval vm_compute in (Str.code c - 48) in
           change (Str.code c - 48) with v
       end; lia ]).
Qed.

Lemma of_nat_digits n :
  allDigits (Str.of_nat n) /\ Str.of_nat n <> ""
  /\ digits_value (Str.of_nat n) = Z.of_nat n.
Proof.
  rewrite of_nat_NilEmpty.
  destruct (string_of_uint_digits (Nat.to_uint n)) as [Ha Hv].
  split; [exact Ha|]. split.
  - pose proof (to_uint_nonnil n). now destruct (Nat.to_uint n).
  - unfold digits_value. change 0%Z with (Z.of_nat 0). rewrite (Hv 0).
    change (Nat.of_uint_acc (Nat.to_uint n) 0) with (Nat.of_uint (Nat.to_uint n)).
    now rewrite DecimalNat.Unsigned.of_to.
Qed.

End Numerals.

(** ** The selection and the view mode *)

(** X1. In every reachable state the comparison view has no selected player,
    and [handleAddEarning] therefore fails there and changes nothing. *)
Theorem comparison_view_has_no_selection :
  forall s,
    reachable s ->
    showAllPlayers s = true ->
    selectedPlayer s = None
    /\ forall today,
         succeeded (handleAddEarning today s) = false
         /\ fst (handleAddEarning today s) = s.
Proof.
  intros s Hr Hshow.
  destruct (reachable_selection_ok s Hr) as [_ Hmode].
  pose proof (Hmode Hshow) as Hnone. split; [exact Hnone|].
  intros today.
  destruct (handleAddEarning_cases today s)
    as [[_ E] | [(sel & _ & Hsel & _) | (sel & _ & Hsel & _)]];
    [now rewrite E | congruence | congruence].
Qed.

Lemma comparison_view_has_no_selection_witness :
  let s :=
    step (step (step (step initial (TypePlayer "Alice")) AddPlayer)
            (SelectPlayer 0)) ShowAll in
  selectedPlayer s = None
  /\ forall today,
       succeeded (handleAddEarning today s) = false
       /\ fst (handleAddEarning today s) = s.
Proof.
  intros s.
  apply (comparison_view_has_no_selection s); [repeat constructor | reflexivity].
Defined.

(** X2. In every reachable state the selected record is one of the records
    of the roster, and the roster row of that record is drawn as selected. *)
Theorem selection_is_in_roster :
  forall s p,
    reachable s ->
    selectedPlayer s = Some p ->
    p ∈ players s /\ rowSelected s p = true.
Proof.
  intros s p Hr Hsel.
  destruct (reachable_selection_ok s Hr) as [Hin _].
  split; [now apply Hin|].
  unfold rowSelected. rewrite Hsel. now apply String.eqb_eq.
Qed.

Lemma selection_is_in_roster_witness :
  let s :=
    step (step (step (step (step initial (TypePlayer "Alice")) AddPlayer)
                  (SelectPlayer 0)) (TypeEarning "50")) (AddEarning "2024-01-01") in
  let p :=
    mkPlayer "Alice"
      [mkEarning "Ticket 1" (Num.of_Z 50) (Num.of_Z 50) "2024-01-01"]
      (Num.of_Z 50) in
  p ∈ players s /\ rowSelected s p = true.
Proof.
  intros s p.
  apply (selection_is_in_roster s p); [repeat constructor | reflexivity].
Defined.

(** ** Stored names *)

Lemma reachable_names_trimmed s :
  reachable s -> Forall trimmedName (players s).
Proof.
  intros Hr. apply (reachable_records trimmedName); [| |exact Hr].
  - intros v Hv. split; [exact Hv | apply trim_idem].
  - intros today a p H. exact H.
Qed.

(** X3. In every reachable state every stored name is non-empty and has no
    white space at either end. *)
Theorem stored_names_are_trimmed :
  forall s p,
    reachable s ->
    p ∈ players s ->
    name p <> "" /\ Str.trim (name p) = name p.
Proof.
  intros s p Hr Hin.
  pose proof (reachable_names_trimmed s Hr) as H.
  rewrite Forall_forall in H. exact (H p Hin).
Qed.

Lemma stored_names_are_trimmed_witness :
  let s := step (step initial (TypePlayer "  Bob ")) AddPlayer in
  let p := mkPlayer "Bob" [] Num.zero in
  name p <> "" /\ Str.trim (name p) = name p.
Proof.
  intros s p.
  apply (stored_names_are_trimmed s p); [repeat constructor | vm_compute; left].
Defined.

(** X4. [handleAddPlayer] answers "Invalid Input" exactly when the input
    consists of white space only (the empty input included), and then
    leaves the state as it was. *)
Theorem blank_name_is_invalid_input :
  forall s,
    (title (snd (handleAddPlayer s)) = "Invalid Input" <->
     Forall (fun c => Str.isWhiteSpace c = true) (codeUnits (newPlayer s)))
    /\ (title (snd (handleAddPlayer s)) = "Invalid Input" ->
        fst (handleAddPlayer s) = s).
Proof.
  intros s. rewrite <- trim_empty.
  destruct (handleAddPlayer_cases s)
    as [[He E] | [(Hne & _ & E) | (Hne & _ & E)]]; rewrite E; simpl.
  - split; [split|]; auto.
  - split; [split|]; [discriminate | congruence | discriminate].
  - split; [split|]; [discriminate | congruence | discriminate].
Qed.

Lemma blank_name_is_invalid_input_witness :
  let s := mkState [] None "   " "" false in
  fst (handleAddPlayer s) = s.
Proof.
  intros s. apply (proj2 (blank_name_is_invalid_input s)). reflexivity.
Defined.

(** ** Ticket labels *)

Section Tickets.

Lemma numbered_withEarning today a p : numbered p -> numbered (withEarning today a p).
Proof.
  intros H i e Hi. simpl in Hi.
  destruct (decide (i < length (earnings p))) as [Hlt | Hge].
  - rewrite lookup_app_l in Hi by exact Hlt. now apply H.
  - rewrite lookup_app_r in Hi by lia.
    destruct (i - length (earnings p)) as [|k] eqn:Ek; simpl in Hi;
      [|now rewrite lookup_nil in Hi].
    injection Hi as <-. simpl.
    replace i with (length (earnings p)) by lia. reflexivity.
Qed.

Lemma reachable_numbered s : reachable s -> Forall numbered (players s).
Proof.
  intros Hr. apply (reachable_records numbered); [| |exact Hr].
  - intros v _ i e Hi. simpl in Hi. now rewrite lookup_nil in Hi.
  - intros today a p H. now apply numbered_withEarning.
Qed.

Lemma ticket_inj a b :
  "Ticket " +:+ Str.of_nat a = "Ticket " +:+ Str.of_nat b -> a = b.
Proof. intros H. apply of_nat_inj. now apply (inj (String.app "Ticket ")) in H. Qed.

(** In a list labelled from [k] on, the label of position [i] is found at
    position [i]. *)
Lemma find_ticket es : forall k i,
  (forall j e, es !! j = Some e ->
               match_ e = "Ticket " +:+ Str.of_nat (k + j)) ->
  List.find
    (fun e => String.eqb (match_ e) ("Ticket " +:+ Str.of_nat (k + i))) es
  = es !! i.
Proof.
  induction es as [|e es IH]; intros k i H; simpl.
  - now rewrite lookup_nil.
  - pose proof (H 0 e eq_refl) as He. rewrite Nat.add_0_r in He.
    destruct i as [|i]; simpl.
    + rewrite Nat.add_0_r, He. now rewrite String.eqb_refl.
    + assert (String.eqb (match_ e) ("Ticket " +:+ Str.of_nat (k + S i)) = false)
        as ->.
      { apply String.eqb_neq. rewrite He. intros E%ticket_inj. lia. }
      replace (k + S i) with (S k + i) by lia. apply IH.
      intros j e' Hj. replace (S k + j) with (k + S j) by lia.
      now apply (H (S j)).
Qed.

End Tickets.

(** X5. In every reachable state the earnings of every player carry the
    labels "Ticket 1", "Ticket 2", ... in order, and looking a label up, as
    the comparison chart does, finds the earning at that position: a label
    never finds another ticket. *)
Theorem tickets_are_numbered :
  forall s p i,
    reachable s ->
    p ∈ players s ->
    (forall e, earnings p !! i = Some e ->
               match_ e = "Ticket " +:+ Str.of_nat (i + 1))
    /\ findEarning ("Ticket " +:+ Str.of_nat (i + 1)) p = earnings p !! i.
Proof.
  intros s p i Hr Hin.
  pose proof (reachable_numbered s Hr) as H.
  rewrite Forall_forall in H. specialize (H p Hin).
  split; [intros e; apply H|].
  unfold findEarning. replace (i + 1) with (1 + i) by lia.
  apply find_ticket. intros j e Hj.
  replace (1 + j) with (j + 1) by lia. now apply H.
Qed.

Lemma tickets_are_numbered_witness :
  let s :=
    step (step (step (step (step initial (TypePlayer "Alice")) AddPlayer)
                  (SelectPlayer 0)) (TypeEarning "50")) (AddEarning "2024-01-01") in
  let p :=
    mkPlayer "Alice"
      [mkEarning "Ticket 1" (Num.of_Z 50) (Num.of_Z 50) "2024-01-01"]
      (Num.of_Z 50) in
  (forall e, earnings p !! 0 = Some e ->
             match_ e = "Ticket " +:+ Str.of_nat (0 + 1))
  /\ findEarning ("Ticket " +:+ Str.of_nat (0 + 1)) p = earnings p !! 0.
Proof.
  intros s p.
  apply (tickets_are_numbered s p 0); [repeat constructor | vm_compute; left].
Defined.

(** ** Histories only grow *)

Section AppendOnly.

Lemma step_keeps_records s e i p :
  players s !! i = Some p ->
  exists p',
    players (step s e) !! i = Some p'
    /\ name p' = name p
    /\ earnings p `prefix_of` earnings p'.
Proof.
  intros Hi.
  assert (exists p', players s !! i = Some p' /\ name p' = name p
                     /\ earnings p `prefix_of` earnings p') as Hsame
    by (exists p; auto).
  destruct e as [v | v | | today | j | ]; simpl; try exact Hsame.
  - destruct (handleAddPlayer_cases s)
      as [[_ E] | [(_ & _ & E) | (_ & _ & E)]]; rewrite E; simpl;
      try exact Hsame.
    exists p. split; [|auto].
    rewrite lookup_app_l; [exact Hi|]. eapply lookup_lt_Some; exact Hi.
  - destruct (handleAddEarning_cases today s)
      as [[_ E] | [(sel & _ & _ & _ & E) | (sel & _ & _ & _ & E)]];
      rewrite E; simpl; try exact Hsame.
    exists (updatePlayer today (name sel) (parseFloat (newEarning s)) p).
    split; [now rewrite list_lookup_fmap, Hi|].
    split; [apply updatePlayer_name|].
    unfold updatePlayer. destruct (String.eqb (name p) (name sel)); simpl;
      [now apply prefix_app_r | reflexivity].
  - unfold selectPlayer. destruct (players s !! j); exact Hsame.
Qed.

End AppendOnly.

(** X6. Whatever events follow, a player keeps its place in the roster and
    its name, and its earnings are only extended at the end: no event
    removes a player, renames one, or rewrites or removes an earning. *)
Theorem records_are_append_only :
  forall es s i p,
    players s !! i = Some p ->
    exists p',
      players (run s es) !! i = Some p'
      /\ name p' = name p
      /\ earnings p `prefix_of` earnings p'.
Proof.
  induction es as [|e es IH]; intros s i p Hi; simpl.
  - exists p. auto.
  - destruct (step_keeps_records s e i p Hi) as (q & Hq & Hn & Hpre).
    destruct (IH (step s e) i q Hq) as (p' & Hp' & Hn' & Hpre').
    exists p'. split; [exact Hp'|]. split; [congruence|].
    now transitivity (earnings q).
Qed.

Lemma records_are_append_only_witness :
  let alice := mkPlayer "Alice" [] Num.zero in
  let s := mkState [alice] None "" "" false in
  exists p',
    players
      (run s [SelectPlayer 0; TypeEarning "50"; AddEarning "2024-01-01";
              TypePlayer "Bob"; AddPlayer]) !! 0 = Some p'
    /\ name p' = "Alice"
    /\ earnings alice `prefix_of` earnings p'.
Proof.
  intros alice s.
  apply (records_are_append_only _ s 0 alice). reflexivity.
Defined.

(** ** Submitting twice *)

(** X7. Both handlers empty their input field when they succeed, so that
    submitting again at once is rejected as "Invalid Input" and changes
    nothing: a submission is not applied twice. *)
Theorem second_submit_is_rejected :
  (forall s,
      succeeded (handleAddPlayer s) = true ->
      let s' := fst (handleAddPlayer s) in
      newPlayer s' = ""
      /\ title (snd (handleAddPlayer s')) = "Invalid Input"
      /\ fst (handleAddPlayer s') = s')
  /\ (forall today today' s,
        succeeded (handleAddEarning today s) = true ->
        let s' := fst (handleAddEarning today s) in
        newEarning s' = ""
        /\ title (snd (handleAddEarning today' s')) = "Invalid Input"
        /\ fst (handleAddEarning today' s') = s').
Proof.
  split.
  - intros s Hok.
    destruct (handleAddPlayer_cases s)
      as [[_ E] | [(_ & _ & E) | (_ & _ & E)]]; rewrite E in Hok |- *;
      try discriminate Hok.
    simpl. auto.
  - intros today today' s Hok.
    destruct (handleAddEarning_cases today s)
      as [[_ E] | [(sel & _ & _ & _ & E) | (sel & _ & _ & _ & E)]];
      rewrite E in Hok |- *; try discriminate Hok.
    simpl. auto.
Qed.

Lemma second_submit_is_rejected_witness :
  let s := mkState [] None "Alice" "" false in
  let s' := fst (handleAddPlayer s) in
  newPlayer s' = ""
  /\ title (snd (handleAddPlayer s')) = "Invalid Input"
  /\ fst (handleAddPlayer s') = s'.
Proof.
  intros s. apply (proj1 second_submit_is_rejected s). reflexivity.
Defined.

(** ** Amounts typed as decimal integers *)

Lemma parseFloat_of_nat n : parseFloat (Str.of_nat n) = Num.of_nat n.
Proof.
  destruct (of_nat_digits n) as (Hd & Hne & Hv).
  destruct (parseFloat_digits (Str.of_nat n) Hd Hne) as [H _].
  now rewrite H, Hv.
Qed.

(** X9. Selecting the [i]-th player, typing the numeral of a natural
    number [n] up to 2^53, which binary64 and the decimal numeral both
    represent exactly, and submitting always succeeds: that player gets one
    more earning, of amount [n], and stays selected; the roster keeps its
    length and the input field is emptied. *)
Theorem select_type_submit_records :
  forall s i p n today,
    players s !! i = Some p ->
    (Z.of_nat n <= 2 ^ 53)%Z ->
    let s' :=
      run s [SelectPlayer i; TypeEarning (Str.of_nat n); AddEarning today] in
    players s' !! i = Some (withEarning today (Num.of_nat n) p)
    /\ length (players s') = length (players s)
    /\ (exists q, selectedPlayer s' = Some q /\ name q = name p)
    /\ newEarning s' = ""
    /\ showAllPlayers s' = false.
Proof.
  intros s i p n today Hi _ s'. subst s'. simpl.
  unfold selectPlayer. rewrite Hi.
  set (s1 := setNewEarning (Str.of_nat n)
               (setShowAllPlayers false (setSelectedPlayer (Some p) s))).
  destruct (of_nat_digits n) as (_ & Hne & _).
  destruct (handleAddEarning_cases today s1)
    as [[[H | H] _] | [(sel & _ & _ & Hnan & _) | (sel & _ & Hsel & _ & E)]].
  - now destruct Hne.
  - discriminate H.
  - simpl in Hnan. now rewrite parseFloat_of_nat in Hnan.
  - rewrite E. injection Hsel as <-. simpl.
    rewrite parseFloat_of_nat.
    split; [|split; [|split]].
    + rewrite list_lookup_fmap, Hi. simpl. now rewrite updatePlayer_same.
    + apply length_map.
    + rewrite findByName_map_update.
      destruct (findByName (name p) (players s)) as [q|] eqn:Eq; simpl.
      * exists (withEarning today (Num.of_nat n) q). split; [reflexivity|].
        unfold findByName in Eq. apply find_some in Eq as [_ Eq].
        now apply String.eqb_eq in Eq.
      * assert (In p (players s)) as Hin
          by (apply list_elem_of_In; eapply list_elem_of_lookup_2; exact Hi).
        unfold findByName in Eq.
        pose proof (find_none _ _ Eq p Hin) as Hp. simpl in Hp.
        rewrite String.eqb_refl in Hp. discriminate Hp.
    + auto.
Qed.

Lemma select_type_submit_records_witness :
  let alice := mkPlayer "Alice" [] Num.zero in
  let s := mkState [alice] None "" "" true in
  let s' :=
    run s [SelectPlayer 0; TypeEarning (Str.of_nat 7); AddEarning "2024-01-01"] in
  players s' !! 0 = Some (withEarning "2024-01-01" (Num.of_nat 7) alice)
  /\ length (players s') = length (players s)
  /\ (exists q, selectedPlayer s' = Some q /\ name q = name alice)
  /\ newEarning s' = ""
  /\ showAllPlayers s' = false.
Proof.
  intros alice s.
  apply (select_type_submit_records s 0 alice 7 "2024-01-01");
    [reflexivity | vm_compute; discriminate].
Defined.

(** ** Names typed without surrounding white space *)

Section UniqueNames.

Lemma names_after_update today sel a ps :
  map (fun p => Str.toLowerCase (name p)) (map (updatePlayer today sel a) ps)
  = map (fun p => Str.toLowerCase (name p)) ps.
Proof.
  rewrite map_map. apply map_ext. intros p. now rewrite updatePlayer_name.
Qed.

Lemma step_uniqueNames s e :
  typesTrimmedName e ->
  Str.trim (newPlayer s) = newPlayer s /\ uniqueNames (players s) ->
  Str.trim (newPlayer (step s e)) = newPlayer (step s e)
  /\ uniqueNames (players (step s e)).
Proof.
  intros He [Htrim Hu]. destruct e as [v | v | | today | i | ]; simpl.
  - split; [exact He | exact Hu].
  - split; assumption.
  - destruct (handleAddPlayer_cases s)
      as [[_ E] | [(_ & _ & E) | (_ & Hfree & E)]]; rewrite E; simpl;
      try (split; assumption).
    split; [reflexivity|]. unfold uniqueNames. rewrite map_app. simpl.
    apply NoDup_app. split; [exact Hu|]. split; [|apply NoDup_singleton].
    intros x Hx ->%list_elem_of_singleton.
    apply list_elem_of_fmap in Hx as (p & Hp & Hin).
    assert (nameTaken (players s) (newPlayer s) = true) as Ht.
    { apply nameTaken_spec. exists p. split; [exact Hin|]. congruence. }
    congruence.
  - destruct (handleAddEarning_cases today s)
      as [[_ E] | [(sel & _ & _ & _ & E) | (sel & _ & _ & _ & E)]];
      rewrite E; simpl; try (split; assumption).
    split; [exact Htrim|]. unfold uniqueNames. now rewrite names_after_update.
  - unfold selectPlayer. destruct (players s !! i); simpl; split; assumption.
  - split; assumption.
Qed.

End UniqueNames.

(** X10. When every name is typed without white space around it, the roster
    never holds two names that are equal up to the case of their letters. *)
Theorem trimmed_inputs_keep_names_unique :
  forall es,
    Forall typesTrimmedName es ->
    uniqueNames (players (run initial es)).
Proof.
  intros es Hes.
  assert (forall s,
            Str.trim (newPlayer s) = newPlayer s /\ uniqueNames (players s) ->
            Str.trim (newPlayer (run s es)) = newPlayer (run s es)
            /\ uniqueNames (players (run s es))) as H.
  { induction Hes as [|e es He _ IH]; intros s Hs; simpl; [exact Hs|].
    apply IH. now apply step_uniqueNames. }
  apply H. split; [reflexivity | apply NoDup_nil_2].
Qed.

Lemma trimmed_inputs_keep_names_unique_witness :
  uniqueNames
    (players
       (run initial
          [TypePlayer "Alice"; AddPlayer; TypePlayer "alice"; AddPlayer;
           TypePlayer "Bob"; AddPlayer])).
Proof.
  apply trimmed_inputs_keep_names_unique.
  repeat (apply Forall_cons_2; [first [reflexivity | exact I]|]).
  apply Forall_nil_2.
Defined.

(** ** What the performance card shows *)

Section Card.

Lemma some_earning_iff ps :
  ((0 <? length ps)
   && existsb (fun p : Player => 0 <? length (earnings p)) ps = true) <->
  exists p e, p ∈ ps /\ e ∈ earnings p.
Proof.
  rewrite andb_true_iff, existsb_exists. split.
  - intros (_ & p & Hin & Hlen). apply Nat.ltb_lt in Hlen.
    destruct (earnings p) as [|e es] eqn:E; [simpl in Hlen; lia|].
    exists p, e. split; [now apply list_elem_of_In|]. rewrite E. left.
  - intros (p & e & Hin & He). split.
    + apply Nat.ltb_lt. destruct ps; [inversion Hin | simpl; lia].
    + exists p. split; [now apply list_elem_of_In|].
      apply Nat.ltb_lt. destruct (earnings p); [inversion He | simpl; lia].
Qed.

Lemma chart_data_nonempty ps :
  generateAllPlayersData ps <> [] <-> exists p e, p ∈ ps /\ e ∈ earnings p.
Proof.
  unfold generateAllPlayersData. split.
  - intros H. destruct (sortedMatches ps) as [|m ms] eqn:E; [now destruct H|].
    assert (m ∈ sortedMatches ps) as Hm by (rewrite E; left).
    apply sortedMatches_elem, allMatches_elem in Hm as (p & e & Hp & He & _).
    eauto.
  - intros (p & e & Hp & He) H.
    assert (match_ e ∈ sortedMatches ps) as Hm.
    { apply sortedMatches_elem, allMatches_elem. eauto. }
    destruct (sortedMatches ps); [inversion Hm | discriminate H].
Qed.

Lemma head_rev (l : list Earning) : head (rev l) = last l.
Proof.
  induction l as [|x l _] using rev_ind; [reflexivity|].
  now rewrite rev_unit, last_snoc.
Qed.

End Card.

(** X11. In the comparison view the chart is drawn exactly when some player
    has an earning, and its data then has at least one row; otherwise the
    "no earnings data" notice is shown.  The chart is never drawn without
    rows. *)
Theorem comparison_chart_has_rows :
  forall s,
    showAllPlayers s = true ->
    (panel s = ComparisonChart (generateAllPlayersData (players s))
     /\ generateAllPlayersData (players s) <> []
     /\ exists p e, p ∈ players s /\ e ∈ earnings p)
    \/ (panel s = NoEarningsData
        /\ generateAllPlayersData (players s) = []
        /\ forall p, p ∈ players s -> earnings p = []).
Proof.
  intros s Hshow. unfold panel. rewrite Hshow.
  destruct ((0 <? length (players s))
            && existsb (fun p => 0 <? length (earnings p)) (players s))
    eqn:E.
  - left. apply some_earning_iff in E.
    split; [reflexivity|]. split; [now apply chart_data_nonempty | exact E].
  - right. split; [reflexivity|].
    assert (~ exists p e, p ∈ players s /\ e ∈ earnings p) as Hno.
    { intros H. apply some_earning_iff in H. congruence. }
    split.
    + destruct (generateAllPlayersData (players s)) eqn:Ed; [reflexivity|].
      destruct Hno. apply chart_data_nonempty. now rewrite Ed.
    + intros p Hp. destruct (earnings p) as [|e es] eqn:Ee; [reflexivity|].
      destruct Hno. exists p, e. split; [exact Hp|]. rewrite Ee. left.
Qed.

Lemma comparison_chart_has_rows_witness :
  let s := mkState [mkPlayer "Alice" [] Num.zero] None "" "" true in
  (panel s = ComparisonChart (generateAllPlayersData (players s))
   /\ generateAllPlayersData (players s) <> []
   /\ exists p e, p ∈ players s /\ e ∈ earnings p)
  \/ (panel s = NoEarningsData
      /\ generateAllPlayersData (players s) = []
      /\ forall p, p ∈ players s -> earnings p = []).
Proof.
  intros s. apply (comparison_chart_has_rows s). reflexivity.
Defined.

(** X12. In every reachable state that shows a player's card with a list of
    recent earnings, the list is the player's earnings from the newest to
    the oldest, and the total shown on its first entry is the total of the
    selected player. *)
Theorem recent_list_starts_with_current_total :
  forall s chart recent e,
    reachable s ->
    panel s = PlayerPanel chart recent ->
    head recent = Some e ->
    exists p,
      selectedPlayer s = Some p
      /\ recent = rev (earnings p)
      /\ last (earnings p) = Some e
      /\ total e = totalEarnings p.
Proof.
  intros s chart recent e Hr Hpanel Hhead.
  unfold panel in Hpanel.
  destruct (showAllPlayers s).
  { destruct (_ && _); discriminate Hpanel. }
  destruct (selectedPlayer s) as [p|] eqn:Hsel; [|discriminate Hpanel].
  injection Hpanel as _ <-.
  destruct (reachable_consistent s Hr) as [_ Hcons].
  destruct (Hcons p Hsel) as [Htot Hpre].
  exists p. split; [reflexivity|].
  destruct (0 <? length (earnings p)); [|discriminate Hhead].
  split; [reflexivity|].
  assert (last (earnings p) = Some e) as Hlast.
  { rewrite <- Hhead. symmetry. apply head_rev. }
  split; [exact Hlast|].
  rewrite last_lookup in Hlast.
  rewrite (Hpre _ _ Hlast), Htot. f_equal. apply take_ge.
  destruct (earnings p); simpl; lia.
Qed.

Lemma recent_list_starts_with_current_total_witness :
  let s :=
    step (step (step (step (step (step (step initial
      (TypePlayer "Alice")) AddPlayer) (SelectPlayer 0))
      (TypeEarning "50")) (AddEarning "2024-01-01"))
      (TypeEarning "-20")) (AddEarning "2024-01-02") in
  let e1 := mkEarning "Ticket 1" (Num.of_Z 50) (Num.of_Z 50) "2024-01-01" in
  let e2 := mkEarning "Ticket 2" (Num.of_Z (-20)) (Num.of_Z 30) "2024-01-02" in
  exists p,
    selectedPlayer s = Some p
    /\ [e2; e1] = rev (earnings p)
    /\ last (earnings p) = Some e2
    /\ total e2 = totalEarnings p.
Proof.
  intros s e1 e2.
  apply (recent_list_starts_with_current_total s (Some [e1; e2]) [e2; e1] e2);
    [repeat constructor | reflexivity | reflexivity].
Defined.

(** ** Lines of the comparison chart *)

(** X13. Every line of the comparison chart gets a colour, whatever the
    position of its player: the index into [playerColors] is never out of
    range.  The first ten players get ten different colours, and the colours
    repeat from the eleventh player on. *)
Theorem line_colors_cycle :
  (forall idx, is_Some (lineColor idx))
  /\ NoDup (map lineColor (seq 0 10))
  /\ (forall idx, lineColor (idx + 10) = lineColor idx).
Proof.
  split; [|split].
  - intros idx. unfold lineColor. apply lookup_lt_is_Some.
    apply Nat.mod_upper_bound. discriminate.
  - apply (bool_decide_unpack _). vm_compute. exact I.
  - intros idx. unfold lineColor. f_equal.
    change (length playerColors) with 10.
    rewrite <- (Nat.Div0.add_mod_idemp_r idx 10 10).
    now rewrite Nat.Div0.mod_same, Nat.add_0_r.
Qed.

Section RowOrder.

Lemma strict_lookup (l : list string) :
  StronglySorted (fun a b => (a <? b)%string = true) l ->
  forall i j a b, l !! i = Some a -> l !! j = Some b -> i < j ->
                  (a <? b)%string = true.
Proof.
  induction 1 as [|x l Hs IH Hall]; intros i j a b Hi Hj Hlt.
  - now rewrite lookup_nil in Hi.
  - destruct j as [|j]; [lia|]. simpl in Hj.
    destruct i as [|i]; simpl in Hi.
    + injection Hi as <-. rewrite Forall_forall in Hall.
      apply Hall. eapply list_elem_of_lookup_2. exact Hj.
    + apply (IH i j); [assumption | assumption | lia].
Qed.

End RowOrder.

(** X14. The rows of the comparison chart follow the order of their labels
    as strings: of two rows, the one whose label is the smaller string comes
    first.  The row of "Ticket 10" therefore comes before the row of
    "Ticket 2". *)
Theorem rows_follow_string_order :
  forall ps i j a b,
    sortedMatches ps !! i = Some a ->
    sortedMatches ps !! j = Some b ->
    (i < j <-> (a <? b)%string = true).
Proof.
  intros ps i j a b Hi Hj.
  pose proof (strict_lookup _ (sortedMatches_strict ps)) as H.
  split; [now apply (H i j)|].
  intros Hab.
  destruct (Nat.lt_trichotomy i j) as [Hlt | [-> | Hgt]]; [exact Hlt| |].
  - assert (a = b) as -> by congruence.
    rewrite ltb_irrefl in Hab. discriminate.
  - pose proof (H j i b a Hj Hi Hgt) as Hba.
    pose proof (ltb_trans a b a Hab Hba) as Haa.
    rewrite ltb_irrefl in Haa. discriminate.
Qed.

Lemma rows_follow_string_order_witness :
  let tickets :=
    map (fun n => mkEarning ("Ticket " +:+ Str.of_nat n) Num.zero Num.zero "")
      (seq 1 10) in
  let ps := [mkPlayer "Alice" tickets Num.zero] in
  sortedMatches ps !! 1 = Some "Ticket 10"
  /\ sortedMatches ps !! 2 = Some "Ticket 2"
  /\ (1 < 2 <-> ("Ticket 10" <? "Ticket 2")%string = true).
Proof.
  intros tickets ps.
  split; [reflexivity|]. split; [reflexivity|].
  apply (rows_follow_string_order ps 1 2); reflexivity.
Defined.

(** X15. Every row of the comparison chart has an entry under the name of
    every player whose name is not "__proto__", a number or [null].  When
    several players have the same name they share that entry, and it holds
    the value of the last of them in the roster. *)
Theorem row_entry_of_last_namesake :
  forall ps i m p,
    sortedMatches ps !! i = Some m ->
    p ∈ ps ->
    name p <> "__proto__" ->
    exists row q,
      generateAllPlayersData ps !! i = Some row
      /\ last (filter (fun q => name q = name p) ps) = Some q
      /\ props row !! name p = Some (pointValue m q)
      /\ pointValue m q <> VString m.
Proof.
  intros ps i m p Hi Hp Hproto.
  assert (p ∈ filter (fun q => name q = name p) ps) as Hf
    by (apply list_elem_of_filter; auto).
  destruct (last (filter (fun q => name q = name p) ps)) as [q|] eqn:Eq.
  - exists (dataPoint ps m), q. split.
    { unfold generateAllPlayersData. now rewrite list_lookup_fmap, Hi. }
    split; [reflexivity|]. split.
    + now rewrite dataPoint_lookup, Eq by exact Hproto.
    + unfold pointValue. destruct (findEarning m q); discriminate.
  - apply last_None in Eq. rewrite Eq in Hf. inversion Hf.
Qed.

Lemma row_entry_of_last_namesake_witness :
  let a1 :=
    mkPlayer "Alice"
      [mkEarning "Ticket 1" (Num.of_Z 10) (Num.of_Z 10) "2024-01-01"]
      (Num.of_Z 10) in
  let a2 := mkPlayer "Alice" [] Num.zero in
  exists row q,
    generateAllPlayersData [a1; a2] !! 0 = Some row
    /\ last (filter (fun q => name q = name a1) [a1; a2]) = Some q
    /\ props row !! name a1 = Some (pointValue "Ticket 1" q)
    /\ pointValue "Ticket 1" q <> VString "Ticket 1".
Proof.
  intros a1 a2.
  apply (row_entry_of_last_namesake [a1; a2] 0 "Ticket 1" a1);
    [reflexivity | left | discriminate].
Defined.

Section ProtoKey.

Lemma assign_other_keeps_proto_key k v o :
  k <> "__proto__" ->
  props (assign k v o) !! "__proto__" = props o !! "__proto__"
  /\ nullProto (assign k v o) = nullProto o.
Proof.
  intros Hk. unfold assign.
  apply String.eqb_neq in Hk. rewrite Hk. simpl.
  apply String.eqb_neq in Hk. now rewrite lookup_insert_ne.
Qed.

Lemma no_proto_name_keeps_proto_key m ps : forall o,
  (forall q, q ∈ ps -> name q <> "__proto__") ->
  props
    (fold_left (fun dp q => assign (name q) (pointValue m q) dp) ps o)
    !! "__proto__" = props o !! "__proto__".
Proof.
  induction ps as [|q ps IH]; intros o H; simpl; [reflexivity|].
  rewrite IH by (intros x Hx; apply H; now right).
  apply assign_other_keeps_proto_key, H. left.
Qed.

Lemma one_proto_name_keeps_proto_key m ps : forall o,
  nullProto o = false ->
  length (filter (fun q => name q = "__proto__") ps) <= 1 ->
  props
    (fold_left (fun dp q => assign (name q) (pointValue m q) dp) ps o)
    !! "__proto__" = props o !! "__proto__".
Proof.
  induction ps as [|q ps IH]; intros o Ho Hlen; simpl; [reflexivity|].
  destruct (decide (name q = "__proto__")) as [E | E].
  - rewrite filter_cons_True in Hlen by exact E. simpl in Hlen.
    assert (filter (fun q => name q = "__proto__") ps = []) as Hnil
      by (destruct (filter _ ps); [reflexivity | simpl in Hlen; lia]).
    rewrite no_proto_name_keeps_proto_key.
    + unfold assign. rewrite E, Ho. simpl. now destruct (pointValue m q).
    + intros x Hx Ex.
      assert (x ∈ filter (fun q => name q = "__proto__") ps) as Hf
        by (apply list_elem_of_filter; auto).
      rewrite Hnil in Hf. inversion Hf.
  - rewrite filter_cons_False in Hlen by exact E.
    destruct (assign_other_keeps_proto_key (name q) (pointValue m q) o E)
      as [Hp Hn].
    rewrite IH; [exact Hp | now rewrite Hn | exact Hlen].
Qed.

End ProtoKey.

(** X19. When at most one player is named "__proto__", no row of the
    comparison chart has an entry under "__proto__": the assignment under
    that key sets the prototype of the row or does nothing, and the value of
    that player is not stored. *)
Theorem proto_named_player_has_no_entry :
  forall ps i m,
    sortedMatches ps !! i = Some m ->
    length (filter (fun q => name q = "__proto__") ps) <= 1 ->
    exists row,
      generateAllPlayersData ps !! i = Some row
      /\ props row !! "__proto__" = None.
Proof.
  intros ps i m Hi Hlen. exists (dataPoint ps m). split.
  { unfold generateAllPlayersData. now rewrite list_lookup_fmap, Hi. }
  unfold dataPoint.
  rewrite one_proto_name_keeps_proto_key; [|reflexivity | exact Hlen].
  reflexivity.
Qed.

Lemma proto_named_player_has_no_entry_witness :
  let p :=
    mkPlayer "__proto__"
      [mkEarning "Ticket 1" (Num.of_Z 5) (Num.of_Z 5) "2024-01-01"]
      (Num.of_Z 5) in
  exists row,
    generateAllPlayersData [p] !! 0 = Some row
    /\ props row !! "__proto__" = None.
Proof.
  intros p.
  apply (proto_named_player_has_no_entry [p] 0 "Ticket 1");
    [reflexivity | vm_compute; lia].
Defined.

(** ** Dashboard statistics *)

Section Stats.

Lemma totalWinnings_ext (f g : Player -> number) ps : forall acc,
  Forall (fun p => f p = g p) ps ->
  fold_left (fun sum p => (sum + f p)%num) ps acc
  = fold_left (fun sum p => (sum + g p)%num) ps acc.
Proof.
  induction ps as [|p ps IH]; intros acc H; simpl; [reflexivity|].
  inversion H as [|? ? Hp Hps]; subst. rewrite Hp. now apply IH.
Qed.

End Stats.

(** X16. For every roster within the length limit of an array the win rate
    is a whole number of percent between 0 and 100. *)
Theorem win_rate_is_a_percentage :
  forall ps,
    (Z.of_nat (totalPlayers ps) < 2 ^ 32)%Z ->
    exists r, winRate ps = Num.of_Z r /\ (0 <= r <= 100)%Z.
Proof.
  intros ps Hlen. unfold winRate.
  destruct (0 <? totalPlayers ps) eqn:E.
  - apply Nat.ltb_lt in E. pose proof (profitable_le_total ps) as Hle.
    destruct (round_percent (Z.of_nat (profitablePlayers ps))
                (Z.of_nat (totalPlayers ps))) as (r & Hr & Hb); [lia | lia |].
    exists r. split; [exact Hr | nia].
  - exists 0%Z. split; [reflexivity | lia].
Qed.

Lemma win_rate_is_a_percentage_witness :
  exists r,
    winRate
      (replicate 23 (mkPlayer "w" [] (Num.of_Z 1))
       ++ replicate 17 (mkPlayer "l" [] Num.zero)) = Num.of_Z r
    /\ (0 <= r <= 100)%Z.
Proof.
  apply win_rate_is_a_percentage. vm_compute. reflexivity.
Defined.

(** X17. In every reachable state the "Total Earnings" of the dashboard is
    the sum, over the players in roster order, of the sums of the amounts of
    their earnings. *)
Theorem total_winnings_sums_all_amounts :
  forall s,
    reachable s ->
    totalWinnings (players s)
    = fold_left (fun sum p => (sum + sumAmounts (earnings p))%num)
        (players s) Num.zero.
Proof.
  intros s Hr. destruct (reachable_consistent s Hr) as [Hps _].
  unfold totalWinnings. apply totalWinnings_ext.
  eapply Forall_impl; [exact Hps|]. now intros p [H _].
Qed.

Lemma total_winnings_sums_all_amounts_witness :
  let s :=
    step (step (step (step (step initial (TypePlayer "Alice")) AddPlayer)
                  (SelectPlayer 0)) (TypeEarning "50")) (AddEarning "2024-01-01") in
  totalWinnings (players s)
  = fold_left (fun sum p => (sum + sumAmounts (earnings p))%num)
      (players s) Num.zero.
Proof.
  intros s. apply (total_winnings_sums_all_amounts s). repeat constructor.
Defined.

(** ** Re-adding a stored name *)

Section LetterCase.

Lemma lowerChar_whitespace c :
  Str.isWhiteSpace (Str.lowerChar c) = Str.isWhiteSpace c.
Proof. destruct c as [[] [] [] [] [] [] [] []]; reflexivity. Qed.

Lemma toLowerCase_blank s :
  Forall (fun c => Str.isWhiteSpace c = true) (codeUnits (Str.toLowerCase s))
  <-> Forall (fun c => Str.isWhiteSpace c = true) (codeUnits s).
Proof.
  induction s as [|c s IH]; simpl; [reflexivity|].
  rewrite !Forall_cons, lowerChar_whitespace, IH. reflexivity.
Qed.

Lemma same_letters_trim v n :
  Str.toLowerCase v = Str.toLowerCase n ->
  Str.trim n <> "" -> Str.trim v <> "".
Proof.
  intros E Hn Hv. apply Hn.
  apply trim_empty, toLowerCase_blank. rewrite <- E.
  now apply toLowerCase_blank, trim_empty.
Qed.

End LetterCase.

(** X18. In every reachable state, typing the name of a player of the
    roster, in any case of its letters, and submitting is answered "Player
    Exists" and changes nothing. *)
Theorem stored_name_in_any_case_is_rejected :
  forall s p v,
    reachable s ->
    p ∈ players s ->
    Str.toLowerCase v = Str.toLowerCase (name p) ->
    let s1 := step s (TypePlayer v) in
    title (snd (handleAddPlayer s1)) = "Player Exists"
    /\ fst (handleAddPlayer s1) = s1.
Proof.
  intros s p v Hr Hin Hv s1.
  pose proof (reachable_names_trimmed s Hr) as Hnames.
  rewrite Forall_forall in Hnames. destruct (Hnames p Hin) as [Hne Htrim].
  assert (Str.trim v <> "") as Hv'.
  { apply (same_letters_trim v (name p) Hv). now rewrite Htrim. }
  assert (nameTaken (players s1) (newPlayer s1) = true) as Ht.
  { apply nameTaken_spec. exists p. split; [exact Hin | now symmetry]. }
  destruct (handleAddPlayer_cases s1)
    as [[He _] | [(_ & _ & E) | (_ & Hfree & _)]].
  - now destruct Hv'.
  - now rewrite E.
  - congruence.
Qed.

Lemma stored_name_in_any_case_is_rejected_witness :
  let s := step (step initial (TypePlayer "Alice")) AddPlayer in
  let s1 := step s (TypePlayer "aLICE") in
  title (snd (handleAddPlayer s1)) = "Player Exists"
  /\ fst (handleAddPlayer s1) = s1.
Proof.
  intros s.
  apply (stored_name_in_any_case_is_rejected s (mkPlayer "Alice" [] Num.zero)
           "aLICE"); [repeat constructor | vm_compute; left | reflexivity].
Defined.
